(** * Guess Mosaic: the guess evaluator and the daily selector of [app.js]

    A shallow embedding of the pure core of [src/app.js] and of the
    parts of its session controller that guard it, with the properties
    the specification states about them.

    Conventions of the embedding.
    - A JavaScript string is the list of its UTF-16 code units
      ([jsstring]); [s[i]] is the list lookup [s !! i], whose [None] is
      JavaScript's [undefined].
    - An object used as a dictionary ([counts], [status]) is a [gmap]
      keyed by what the code indexes it with, a value of [s[i]]: [Some c]
      is the one-unit property name, [None] is the property name
      "undefined" that [undefined] is coerced to.  No property of
      [Object.prototype] has either kind of name, so a missing key reads
      [undefined].
    - A number that the code may turn into [NaN] is a [jsnum]. *)

From Stdlib Require Import ZArith Lia String Ascii.
From stdpp Require Import base numbers option list gmap gmultiset.

Local Open Scope Z_scope.

(** ** JavaScript values *)

Abbreviation code_unit := N (only parsing).
Abbreviation jsstring := (list N) (only parsing).

(** A string literal of the source, for the ASCII literals it uses. *)
Fixpoint js (s : string) : jsstring :=
  match s with
  | EmptyString => []
  | String a s' => N_of_ascii a :: js s'
  end.

Inductive jsnum := Num (z : Z) | NaN.

Global Instance jsnum_eq_dec : EqDecision jsnum.
Proof. solve_decision. Defined.

(** [v || 0] for [v] a number or [undefined]: [undefined], [0] and [NaN]
    are falsy. *)
Definition js_or0 (v : option jsnum) : jsnum :=
  match v with
  | Some (Num z) => if decide (z = 0) then Num 0 else Num z
  | Some NaN | None => Num 0
  end.

(** [v + k] and [v - k] for [v] a number or [undefined] and [k] a
    literal: [undefined] converts to [NaN]. *)
Definition js_add (v : option jsnum) (k : Z) : jsnum :=
  match v with
  | Some (Num z) => Num (z + k)
  | Some NaN | None => NaN
  end.

Definition js_sub (v : option jsnum) (k : Z) : jsnum :=
  match v with
  | Some (Num z) => Num (z - k)
  | Some NaN | None => NaN
  end.

(** [v > 0]: false on [undefined] and on [NaN]. *)
Definition js_gt0 (v : option jsnum) : bool :=
  match v with
  | Some (Num z) => bool_decide (0 < z)
  | Some NaN | None => false
  end.

(** [for (let i = 0; i < len; i++) body], on the variables [S] that the
    body updates. *)
Definition for_upto {S : Type} (len : nat) (body : S → nat → S) (s : S) : S :=
  foldl body s (seq 0 len).

(** ** Statuses *)

Inductive status := correct | present | absent.

Global Instance status_eq_dec : EqDecision status.
Proof. solve_decision. Defined.

(** ** [evaluateGuess] (app.js, lines 85-110) *)

Module Evaluator.

(** The two locals the three loops update. *)
Record locals := Locals {
  result : list status;
  counts : gmap (option code_unit) jsnum
}.

(** [counts[ch] = (counts[ch] || 0) + 1] with [ch = target[i]]. *)
Definition count_step (target : jsstring)
    (counts : gmap (option code_unit) jsnum) (i : nat)
    : gmap (option code_unit) jsnum :=
  let ch := target !! i in
  <[ch := js_add (Some (js_or0 (counts !! ch))) 1]> counts.

(** First pass: [if (guess[i] === target[i]) { result[i] = 'correct';
    counts[guess[i]] -= 1; }]. *)
Definition correct_step (guess target : jsstring) (st : locals) (i : nat)
    : locals :=
  if decide (guess !! i = target !! i) then
    Locals (<[i := correct]> (result st))
           (<[guess !! i := js_sub (counts st !! (guess !! i)) 1]> (counts st))
  else st.

(** Second pass: [if (result[i] === 'correct') continue; const g =
    guess[i]; if (counts[g] > 0) { result[i] = 'present'; counts[g] -= 1; }]. *)
Definition present_step (guess : jsstring) (st : locals) (i : nat) : locals :=
  if decide (result st !! i = Some correct) then st
  else
    let g := guess !! i in
    if js_gt0 (counts st !! g) then
      Locals (<[i := present]> (result st))
             (<[g := js_sub (counts st !! g) 1]> (counts st))
    else st.

Definition evaluateGuess (guess target : jsstring) : list status :=
  let len := length target in
  let st := Locals (replicate len absent)
                   (for_upto len (count_step target) ∅) in
  let st := for_upto len (correct_step guess target) st in
  let st := for_upto len (present_step guess) st in
  result st.

(** How a call ends: with a value, or with a thrown error. *)
Inductive completion (A : Type) :=
  | Normal (a : A)
  | Throw (error : jsstring).
Arguments Normal {A} a.
Arguments Throw {A} error.

(** The body of [evaluateGuess] has no [throw], and none of its
    operations throws on strings: a string read past its end and an
    object read at a missing key are [undefined].  The call ends with
    the array. *)
Definition evaluateGuess_completion (guess target : jsstring)
    : completion (list status) :=
  Normal (evaluateGuess guess target).

End Evaluator.

Import Evaluator.

(** ** The two-pass algorithm in the words of the specification

    Section 4.2: build a multiset (letter to remaining count) from the
    target; first pass, left to right: at each position where
    [guess[i] == target[i]] mark [correct] and decrement that letter's
    remaining count; second pass, left to right, skipping the positions
    marked [correct]: if the guess letter's remaining count is [> 0],
    mark [present] and decrement it, otherwise mark [absent].  Guess and
    target have the same length. *)

Module Reference.

Definition letter_counts (target : jsstring) : gmultiset code_unit :=
  list_to_set_disj target.

Fixpoint first_pass (guess target : jsstring) (M : gmultiset code_unit)
    : list (option status) * gmultiset code_unit :=
  match guess, target with
  | g :: guess', t :: target' =>
      if decide (g = t) then
        let (marks, M') := first_pass guess' target' (M ∖ {[+ g +]}) in
        (Some correct :: marks, M')
      else
        let (marks, M') := first_pass guess' target' M in
        (None :: marks, M')
  | _, _ => ([], M)
  end.

Fixpoint second_pass (guess : jsstring) (marks : list (option status))
    (M : gmultiset code_unit) : list status :=
  match guess, marks with
  | _ :: guess', Some s :: marks' => s :: second_pass guess' marks' M
  | g :: guess', None :: marks' =>
      if decide (0 < multiplicity g M)%nat
      then present :: second_pass guess' marks' (M ∖ {[+ g +]})
      else absent :: second_pass guess' marks' M
  | _, _ => []
  end.

Definition evaluate (guess target : jsstring) : list status :=
  let (marks, M) := first_pass guess target (letter_counts target) in
  second_pass guess marks M.

End Reference.

(** ** The evaluator by structural recursion

    The positions of the target, each with the guess's code unit there
    ([None] past the end of the guess). *)
Fixpoint align (guess target : jsstring) : list (option code_unit * code_unit) :=
  match target with
  | [] => []
  | t :: target' => (head guess, t) :: align (tail guess) target'
  end.

Definition matches (p : option code_unit * code_unit) : Prop := p.1 = Some p.2.

Global Instance matches_dec p : Decision (matches p).
Proof. unfold matches. apply _. Defined.

(** The target's letters at the positions that do not match. *)
Definition unmatched (ps : list (option code_unit * code_unit)) : jsstring :=
  snd <$> filter (λ p, ¬ matches p) ps.

Definition mark_correct (p : option code_unit * code_unit) : status :=
  if decide (matches p) then correct else absent.

(** The status of one position in the second pass, and the letters left
    after it, given the letters [M] left before it. *)
Definition mark_present (M : gmultiset code_unit)
    (p : option code_unit * code_unit) : status :=
  if decide (matches p) then correct
  else match p.1 with
       | Some c => if decide (c ∈ M) then present else absent
       | None => absent
       end.

Definition consume (M : gmultiset code_unit)
    (p : option code_unit * code_unit) : gmultiset code_unit :=
  if decide (matches p) then M
  else match p.1 with
       | Some c => M ∖ {[+ c +]}
       | None => M
       end.

Fixpoint present_pass (M : gmultiset code_unit)
    (ps : list (option code_unit * code_unit)) : list status :=
  match ps with
  | [] => []
  | p :: ps' => mark_present M p :: present_pass (consume M p) ps'
  end.

Definition leftover (M : gmultiset code_unit)
    (ps : list (option code_unit * code_unit)) : gmultiset code_unit :=
  foldl consume M ps.

Definition evaluate_aligned (ps : list (option code_unit * code_unit))
    : list status :=
  present_pass (list_to_set_disj (unmatched ps)) ps.

(** ** Proof-side notions

    The dictionary [counts] holds the multiset [M]: no entry for the
    name "undefined", and every letter's entry, read as a number with
    [undefined] for zero, is its multiplicity. *)
Definition numval (v : option jsnum) : option Z :=
  match v with
  | None => Some 0
  | Some (Num z) => Some z
  | Some NaN => None
  end.

Definition holds (counts : gmap (option code_unit) jsnum)
    (M : gmultiset code_unit) : Prop :=
  counts !! None = None ∧
  ∀ c, numval (counts !! Some c) = Some (Z.of_nat (multiplicity c M)).

(** The target's letters at the positions that match. *)
Definition matched (ps : list (option code_unit * code_unit)) : jsstring :=
  snd <$> filter matches ps.

(** The positions where guess and target have the same code unit. *)
Definition exact_matches (guess target : jsstring) : nat :=
  length (filter (λ p : N * N, p.1 = p.2) (zip guess target)).

Definition count_status (s : status) (r : list status) : nat :=
  length (filter (s =.) r).

(** The positions where the guess has [c] and the status is [correct]
    or [present]. *)
Definition marked (c : code_unit) (guess : jsstring) (r : list status) : nat :=
  length (filter (λ p : N * status, p.1 = c ∧ (p.2 = correct ∨ p.2 = present))
            (zip guess r)).

Definition occurrences (c : code_unit) (target : jsstring) : nat :=
  length (filter (c =.) target).

(** ** [dailyIndex] (app.js, lines 56-65)

    [Date.now()] is the parameter [now], a time value: an integer number
    of milliseconds of absolute value at most 8.64e15.

    JavaScript computes in binary64.  [Date.now() / 86400000] is rounded,
    but never onto the next whole day nor below the current one (the
    quotient of a time value is at least 1/86400000 away from the next
    integer, its rounding error is below 2^-27), and the subtraction of
    the whole number [epoch] keeps that; so [Math.floor(today - epoch)]
    is the floor of the exact quotient minus [epoch].  Products and sums
    of integers are exact below 2^53 and rounded to the nearest
    representable integer, ties to even, from there on ([fl53]). *)

Module Selector.

Definition MS_PER_DAY : Z := 86400000.

(** [Date.UTC(2025, 0, 1)], midnight of 1 January 2025. *)
Definition UTC_2025_01_01 : Z := 1735689600000.

(** The nearest integer that binary64 represents. *)
Definition fl53 (z : Z) : Z :=
  if decide (Z.abs z < 2 ^ 53) then z
  else
    let m := 2 ^ (Z.log2 (Z.abs z) - 52) in
    let q := z / m in
    let r := z mod m in
    if decide (2 * r < m) then q * m
    else if decide (m < 2 * r) then (q + 1) * m
    else if Z.even q then q * m
    else (q + 1) * m.

(** [x >>> 0] on an integer: ToUint32. *)
Definition to_uint32 (z : Z) : Z := z mod 2 ^ 32.

Definition epoch : Z := UTC_2025_01_01 / MS_PER_DAY.

(** [dayId()] (line 68): [Math.floor(Date.now() / 86400000)]. *)
Definition dayId (now : Z) : Z := now / MS_PER_DAY.

Definition dayNumber (now : Z) : Z := now / MS_PER_DAY - epoch.

(** [h = (h * 31 + lang.charCodeAt(i)) >>> 0]; [charCodeAt] past the
    end is [NaN], which [>>> 0] turns into 0. *)
Definition hash_step (lang : jsstring) (h : Z) (i : nat) : Z :=
  match lang !! i with
  | Some c => to_uint32 (fl53 (fl53 (h * 31) + Z.of_N c))
  | None => 0
  end.

Definition lang_hash (lang : jsstring) : Z :=
  for_upto (length lang) (hash_step lang) 0.

Definition mix (dayNumber h : Z) : Z :=
  to_uint32 (fl53 (fl53 (fl53 (dayNumber * 1103515245) + 12345) + h)).

(** [mix % words.length]: [NaN] when the list is empty. *)
Definition dailyIndex (now : Z) (words : list jsstring) (lang : jsstring)
    : jsnum :=
  let dayNumber := dayNumber now in
  let h := lang_hash lang in
  let mix := mix dayNumber h in
  if decide (length words = 0%nat) then NaN
  else Num (mix mod Z.of_nat (length words)).

End Selector.

Import Selector.

(** ** The session controller: the parts that call the core *)

Module Game.

(** The four decoded lists of [wordlist-obf.js] (lines 25-28). *)
Record wordlists := Wordlists {
  WORDS_EN : list jsstring;
  WORDS_UK : list jsstring;
  ALLOWED_EN : gset jsstring;
  ALLOWED_UK : gset jsstring
}.

(** The module-level variables (lines 31-38 and 67); the text of the
    toast element of the page, which [showMessage] sets ([None] before
    the first message); and the constant [toastEl] of line 45, here
    whether [document.getElementById('toast')] found that element: the
    page is not among the sources, so every game carries its answer. *)
Record game := Game {
  currentLang : jsstring;
  targetWord : jsstring;
  attempts : list jsstring;
  currentGuess : jsstring;
  gameOver : bool;
  firstLoad : bool;
  manualOverride : option jsstring;
  toast : option jsstring;
  toastEl : bool
}.

Definition maxAttempts : nat := 6.

(** What [loadState] returns when the store has a state.  The only
    writer of the store is [saveState]; the model covers the stored
    objects of the shape it writes: a number, strings, an array of
    strings and a boolean.  [JSON.parse] of a store written by another
    hand may return a value of another shape; such values are outside
    the model. *)
Record payload := Payload {
  saved_dayId : Z;
  saved_lang : jsstring;
  saved_solution : jsstring;
  saved_attempts : list jsstring;
  saved_currentGuess : jsstring;
  saved_gameOver : bool
}.

Definition listFor (w : wordlists) (lang : jsstring) : list jsstring :=
  if decide (lang = js "uk") then WORDS_UK w else WORDS_EN w.

Definition allowedSetFor (w : wordlists) (lang : jsstring) : gset jsstring :=
  if decide (lang = js "uk") then ALLOWED_UK w else ALLOWED_EN w.

(** [showMessage] (lines 76-81): [if (!toastEl) return;
    toastEl.textContent = text;].  The class and the timer that hide
    the toast again are not modelled. *)
Definition showMessage (text : jsstring) (g : game) : game :=
  if toastEl g then
    Game (currentLang g) (targetWord g) (attempts g) (currentGuess g)
         (gameOver g) (firstLoad g) (manualOverride g) (Some text)
         (toastEl g)
  else g.

(** A string or [undefined] is falsy when it is [undefined] or empty. *)
Definition falsy (s : option jsstring) : bool :=
  match s with
  | None | Some [] => true
  | Some (_ :: _) => false
  end.

(** [words[idx]]. *)
Definition word_at (words : list jsstring) (idx : jsnum) : option jsstring :=
  match idx with
  | Num z => if decide (0 ≤ z) then words !! Z.to_nat z else None
  | NaN => None
  end.

(** [words.includes(o)]; [null] is in no list of strings. *)
Definition includes (words : list jsstring) (o : option jsstring) : bool :=
  match o with
  | Some s => bool_decide (s ∈ words)
  | None => false
  end.

(** [pickWord] (lines 69-75); the empty string is [Some []]. *)
Definition pickWord (w : wordlists) (now : Z) (g : game) : option jsstring :=
  let words := listFor w (currentLang g) in
  if decide (length words = 0%nat) then Some []
  else if negb (falsy (manualOverride g))
          && includes words (manualOverride g)
  then manualOverride g
  else
    let idx := dailyIndex now words (currentLang g) in
    word_at words idx.

(** [submitGuess] (lines 222-244), on the variables; [saveState] and the
    two render functions write the store and the page only.
    [showMessage] reads none of the variables, so it is applied to the
    state in which [gameOver] is already set. *)
Definition submitGuess (w : wordlists) (g : game) : game :=
  if gameOver g then g
  else if decide (length (currentGuess g) ≠ length (targetWord g)) then
    showMessage (js "Not enough letters") g
  else
    let guess := currentGuess g in
    let allowed := allowedSetFor w (currentLang g) in
    if bool_decide (size allowed ≠ 0%nat ∧ (guess ∉ allowed)
                    ∧ guess ≠ targetWord g) then
      showMessage (js "Not in word list") g
    else
      let attempts' := attempts g ++ [guess] in
      if decide (guess = targetWord g) then
        showMessage (js "You win!")
          (Game (currentLang g) (targetWord g) attempts' [] true
                (firstLoad g) (manualOverride g) (toast g) (toastEl g))
      else if decide (length attempts' = maxAttempts) then
        showMessage (js "Game over! Word was " ++ targetWord g)
          (Game (currentLang g) (targetWord g) attempts' [] true
                (firstLoad g) (manualOverride g) (toast g) (toastEl g))
      else
        Game (currentLang g) (targetWord g) attempts' [] false
             (firstLoad g) (manualOverride g) (toast g) (toastEl g).

(** The first statement of [startGame] (lines 272-276): on the first
    load, take the language of a state saved today. *)
Definition restoreLang (now : Z) (restored : option payload)
    (manualSwitch : bool) (g : game) : game :=
  match restored with
  | Some p =>
      if negb manualSwitch && firstLoad g
         && bool_decide (saved_dayId p = dayId now)
         && negb (falsy (Some (saved_lang p)))
      then Game (saved_lang p) (targetWord g) (attempts g) (currentGuess g)
                (gameOver g) (firstLoad g) (manualOverride g) (toast g)
                (toastEl g)
      else g
  | None => g
  end.

(** [startGame] (lines 271-299); [restored] is what [loadState]
    returned, and [now] is the clock, the same at each of its reads
    during the call. *)
Definition startGame (w : wordlists) (now : Z) (restored : option payload)
    (manualSwitch : bool) (g : game) : game :=
  let today := dayId now in
  let g := restoreLang now restored manualSwitch g in
  let solution := pickWord w now g in
  if falsy solution then showMessage (js "No words loaded") g
  else
    let solution := default [] solution in
    match restored with
    | Some p =>
        if bool_decide (saved_dayId p = today ∧ saved_lang p = currentLang g
                        ∧ saved_solution p = solution)
        then
          let cg := saved_currentGuess p in
          let cg := if decide (length solution < length cg)%nat
                    then take (length solution) cg else cg in
          Game (currentLang g) (saved_solution p)
               (take maxAttempts (saved_attempts p)) cg (saved_gameOver p)
               false (manualOverride g) (toast g) (toastEl g)
        else
          Game (currentLang g) solution [] [] false
               false (manualOverride g) (toast g) (toastEl g)
    | None =>
        Game (currentLang g) solution [] [] false
             false (manualOverride g) (toast g) (toastEl g)
    end.

(** One update of the keyboard map [status] (lines 146-153), written
    [hints] here: [l = g[i]], [st = evalSt[i]]. *)
Definition hint_step (l : option code_unit) (st : option status)
    (hints : gmap (option code_unit) status)
    : gmap (option code_unit) status :=
  match st with
  | Some correct => <[l := correct]> hints
  | Some present =>
      if decide (hints !! l = Some correct) then hints
      else <[l := present]> hints
  | _ =>
      if decide (hints !! l = None) then <[l := absent]> hints
      else hints
  end.

(** [computeStatuses] (lines 141-157). *)
Definition computeStatuses (g : game) : gmap (option code_unit) status :=
  foldl (λ hints a,
           let evalSt := evaluateGuess a (targetWord g) in
           for_upto (length a)
             (λ hints i, hint_step (a !! i) (evalSt !! i) hints) hints)
        ∅ (attempts g).

End Game.

Import Game.

(** ** What the keyboard map is measured against *)

Definition strength (s : status) : nat :=
  match s with
  | correct => 2
  | present => 1
  | absent => 0
  end.

(** The status of position [i] of an attempt as the board shows it
    (lines 128-131: a tile whose status is neither ['correct'] nor
    ['present'] is shown ['absent']). *)
Definition shown_status (target a : jsstring) (i : nat) : status :=
  default absent (evaluateGuess a target !! i).

(** Letter [l] was observed with status [s]: at some position of some
    attempt the guess has [l] and the status is [s]. *)
Definition observed (g : game) (l : code_unit) (s : status) : Prop :=
  ∃ a i, a ∈ attempts g ∧ a !! i = Some l
         ∧ shown_status (targetWord g) a i = s.

(** The stronger of the status a letter has and a status observed. *)
Definition stronger (old : option status) (s : status) : status :=
  match old with
  | None => s
  | Some o => if decide (strength o < strength s)%nat then s else o
  end.

(** The map [hints] is right for the observations [Obs]: a letter
    without entry was not observed, and a letter's entry is an observed
    status that no observed status of the letter exceeds. *)
Definition right_for (hints : gmap (option code_unit) status)
    (Obs : code_unit → status → Prop) : Prop :=
  hints !! None = None ∧
  ∀ l, match hints !! Some l with
       | None => ∀ s, ¬ Obs l s
       | Some s => Obs l s ∧ ∀ s', Obs l s' → (strength s' ≤ strength s)%nat
       end.

(** ** [xorDecode] (app.js, lines 9-11) *)

Module Codec.

(** The code units of a JavaScript string are below 2^16. *)
Definition utf16 (s : jsstring) : Prop := Forall (λ c, (c < 2 ^ 16)%N) s.

(** ToInt32, which [^] applies to its operands: [NaN] is 0. *)
Definition to_int32 (v : jsnum) : Z :=
  match v with
  | Num z => (z + 2 ^ 31) mod 2 ^ 32 - 2 ^ 31
  | NaN => 0
  end.

(** [i % n] for an index and a length: [NaN] when [n] is 0. *)
Definition js_rem (i n : nat) : jsnum :=
  if decide (n = 0%nat) then NaN else Num (Z.of_nat (i mod n)).

(** [s.charCodeAt(pos)]: the position [NaN] is position 0, and a
    position outside the string gives [NaN]. *)
Definition charCodeAt (s : jsstring) (pos : jsnum) : jsnum :=
  let p := match pos with Num z => z | NaN => 0 end in
  if decide (0 ≤ p) then
    match s !! Z.to_nat p with
    | Some c => Num (Z.of_N c)
    | None => NaN
    end
  else NaN.

(** [String.fromCharCode(z)]: the code unit ToUint16 of [z]. *)
Definition fromCharCode (z : Z) : code_unit := Z.to_N (z mod 2 ^ 16).

(** [str.split('').map((c, i) => String.fromCharCode(c.charCodeAt(0) ^
    key.charCodeAt(i % key.length))).join('')]. *)
Definition xorDecode (str key : jsstring) : jsstring :=
  imap (λ i c,
          fromCharCode
            (Z.lxor (to_int32 (charCodeAt [c] (Num 0)))
                    (to_int32 (charCodeAt key (js_rem i (length key))))))
       str.

(** The key of line 12. *)
Definition key : jsstring := js "fd@3r!@#rxc$%g".

End Codec.

Import Codec.

(** ** The session controller: keys, store and language *)

Module Controls.

(** The values the module-level variables start with (lines 31-38 and
    67), on a page that has the toast element or has not. *)
Definition initial (toastEl : bool) : game :=
  Game (js "en") [] [] [] false true None None toastEl.

(** [handleKey] (lines 203-211), on the variables. *)
Definition handleKey (letter : jsstring) (g : game) : game :=
  if gameOver g then g
  else if decide (maxAttempts ≤ length (attempts g))%nat then g
  else if decide (length (targetWord g) ≤ length (currentGuess g))%nat then g
  else
    Game (currentLang g) (targetWord g) (attempts g)
         (currentGuess g ++ letter) (gameOver g) (firstLoad g)
         (manualOverride g) (toast g) (toastEl g).

(** [deleteLetter] (lines 213-220): [currentGuess.slice(0, -1)]. *)
Definition deleteLetter (g : game) : game :=
  if gameOver g then g
  else if falsy (Some (currentGuess g)) then g
  else
    Game (currentLang g) (targetWord g) (attempts g)
         (take (length (currentGuess g) - 1) (currentGuess g))
         (gameOver g) (firstLoad g) (manualOverride g) (toast g)
         (toastEl g).

(** The object that [saveState] (lines 256-261) hands to the store, and
    that [loadState] reads back from it. *)
Definition saveState (now : Z) (g : game) : payload :=
  Payload (dayId now) (currentLang g) (targetWord g) (attempts g)
          (currentGuess g) (gameOver g).

(** [switchLanguageWithConfirm] (lines 246-254).  [confirmed] is the
    answer of [window.confirm], [restored] what [loadState] returns
    inside [startGame], [uk_text] the literal shown for Ukrainian. *)
Definition switchLanguageWithConfirm (w : wordlists) (now : Z)
    (restored : option payload) (confirmed : bool) (uk_text : jsstring)
    (g : game) : game :=
  let hasProgress :=
    bool_decide (0 < length (attempts g))%nat
    || bool_decide (0 < length (currentGuess g))%nat in
  if hasProgress && negb (gameOver g) && negb confirmed then g
  else
    let lang := if decide (currentLang g = js "en") then js "uk" else js "en" in
    let g := Game lang (targetWord g) (attempts g) (currentGuess g)
                  (gameOver g) (firstLoad g) (manualOverride g) (toast g)
                  (toastEl g) in
    let g := startGame w now restored true g in
    showMessage (if decide (currentLang g = js "en")
                 then js "Language: English" else uk_text) g.

(** The buttons of the on-screen keyboard (lines 166-200): Enter calls
    [submitGuess], a letter key [handleKey] with its one code unit, Del
    [deleteLetter]. *)
Inductive click :=
  | ClickEnter
  | ClickLetter (letter : code_unit)
  | ClickDel.

Definition on_click (w : wordlists) (g : game) (c : click) : game :=
  match c with
  | ClickEnter => submitGuess w g
  | ClickLetter letter => handleKey [letter] g
  | ClickDel => deleteLetter g
  end.

End Controls.

Import Controls.

(** ** What the added properties are measured against *)

(** The polynomial hash and the linear mix on the integers. *)
Definition poly_hash (lang : jsstring) : Z :=
  foldl (λ h c, (h * 31 + Z.of_N c) mod 2 ^ 32) 0 lang.

(** A game as play leaves it: every attempt has the target's length,
    there are at most [maxAttempts] of them, the guess being typed is
    no longer than the target, and the game is over exactly when the
    target was guessed or the attempts are used up. *)
Definition in_play (g : game) : Prop :=
  Forall (λ a, length a = length (targetWord g)) (attempts g)
  ∧ (length (attempts g) ≤ maxAttempts)%nat
  ∧ (length (currentGuess g) ≤ length (targetWord g))%nat
  ∧ (gameOver g = true ↔
     targetWord g ∈ attempts g ∨ length (attempts g) = maxAttempts).

(** The language that the language button switches to, and the text
    it then shows. *)
Definition other_lang (lang : jsstring) : jsstring :=
  if decide (lang = js "en") then js "uk" else js "en".

Definition lang_text (uk_text lang : jsstring) : jsstring :=
  if decide (lang = js "en") then js "Language: English" else uk_text.

(** The language button goes on to switch: there is no progress to
    lose, or the game is over, or the user confirmed. *)
Definition switch_goes_on (confirmed : bool) (g : game) : Prop :=
  confirmed = true ∨ gameOver g = true
  ∨ (attempts g = [] ∧ currentGuess g = []).

(** The positions where the guess has [c] and the target another
    letter. *)
Definition misplaced (c : code_unit)
    (ps : list (option code_unit * code_unit)) : nat :=
  length (filter (λ p, p.1 = Some c ∧ ¬ matches p) ps).

(** * Properties *)

(** ** Loops and the dictionary of counts *)

Section Loops.
Context {S : Type}.
Implicit Types (body : S → nat → S) (s : S).

Lemma for_upto_0 body s : for_upto 0 body s = s.
Proof. reflexivity. Qed.

Lemma for_upto_S n body s :
  for_upto (Datatypes.S n) body s = body (for_upto n body s) n.
Proof. unfold for_upto. by rewrite seq_S, foldl_app. Qed.

(** An invariant that the body keeps at every index below the bound
    holds when the loop ends. *)
Lemma for_upto_invariant (I : nat → S → Prop) len body s :
  I 0%nat s →
  (∀ i s', (i < len)%nat → I i s' → I (Datatypes.S i) (body s' i)) →
  I len (for_upto len body s).
Proof.
  intros H0 Hstep.
  assert (∀ n, (n ≤ len)%nat → I n (for_upto n body s)) as H; [|by apply H].
  induction n as [|n IH]; intros Hn; [done|].
  rewrite for_upto_S. apply Hstep; [lia|]. apply IH. lia.
Qed.
End Loops.


Lemma holds_empty : holds ∅ ∅.
Proof. split; [done|]. intros c. by rewrite lookup_empty, multiplicity_empty. Qed.

Lemma holds_incr counts M c :
  holds counts M →
  holds (<[Some c := js_add (Some (js_or0 (counts !! Some c))) 1]> counts)
        ({[+ c +]} ⊎ M).
Proof.
  intros [Hu Hc]. split; [by rewrite lookup_insert_ne|].
  intros d. rewrite multiplicity_disj_union.
  destruct (decide (d = c)) as [->|Hne].
  - rewrite lookup_insert_eq, multiplicity_singleton_eq. specialize (Hc c).
    destruct (counts !! Some c) as [[z|]|]; simpl in *; try done.
    + injection Hc as ->. case_decide; simpl; f_equal; lia.
    + injection Hc as Hc. simpl. f_equal. lia.
  - rewrite lookup_insert_ne by congruence.
    by rewrite Hc, multiplicity_singleton_ne.
Qed.

Lemma holds_decr counts M c :
  holds counts M → c ∈ M →
  holds (<[Some c := js_sub (counts !! Some c) 1]> counts) (M ∖ {[+ c +]}).
Proof.
  intros [Hu Hc] Hin. rewrite elem_of_multiplicity in Hin.
  split; [by rewrite lookup_insert_ne|].
  intros d. rewrite multiplicity_difference.
  destruct (decide (d = c)) as [->|Hne].
  - rewrite lookup_insert_eq, multiplicity_singleton_eq. specialize (Hc c).
    destruct (counts !! Some c) as [[z|]|]; simpl in *; try done.
    + injection Hc as ->. f_equal. lia.
    + injection Hc as Hc. lia.
  - rewrite lookup_insert_ne by congruence.
    rewrite Hc, multiplicity_singleton_ne by done. f_equal. lia.
Qed.

Lemma holds_gt0_letter counts M c :
  holds counts M → js_gt0 (counts !! Some c) = bool_decide (c ∈ M).
Proof.
  intros [_ Hc]. specialize (Hc c).
  destruct (counts !! Some c) as [[z|]|]; simpl in *; try done;
    injection Hc as Hc.
  - apply bool_decide_ext. rewrite elem_of_multiplicity. lia.
  - symmetry. apply bool_decide_eq_false. rewrite elem_of_multiplicity. lia.
Qed.

Lemma holds_gt0_undefined counts M :
  holds counts M → js_gt0 (counts !! None) = false.
Proof. intros [-> _]. done. Qed.

(** ** The loops of [evaluateGuess] compute the structural evaluator *)

Lemma align_length guess target : length (align guess target) = length target.
Proof. revert guess. induction target; intros; simpl; auto. Qed.

Lemma align_lookup guess target i :
  align guess target !! i = (λ t, (guess !! i, t)) <$> (target !! i).
Proof.
  revert guess i. induction target as [|t target IH]; intros guess i; [done|].
  destruct i as [|i]; simpl.
  - by destruct guess.
  - rewrite IH. by destruct guess.
Qed.

Lemma align_lookup_lt guess target i :
  (i < length target)%nat →
  ∃ t, target !! i = Some t ∧ align guess target !! i = Some (guess !! i, t).
Proof.
  intros Hi. destruct (lookup_lt_is_Some_2 target i Hi) as [t Ht].
  exists t. split; [done|]. by rewrite align_lookup, Ht.
Qed.

Lemma unmatched_app ps1 ps2 :
  unmatched (ps1 ++ ps2) = unmatched ps1 ++ unmatched ps2.
Proof. unfold unmatched. by rewrite list.filter_app, fmap_app. Qed.

Lemma mark_correct_matches p : mark_correct p = correct ↔ matches p.
Proof. unfold mark_correct. case_decide; naive_solver. Qed.

Lemma present_pass_app M ps1 ps2 :
  present_pass M (ps1 ++ ps2)
  = present_pass M ps1 ++ present_pass (leftover M ps1) ps2.
Proof.
  revert M. induction ps1 as [|p ps1 IH]; intros M; simpl; [done|].
  by rewrite IH.
Qed.

Lemma present_pass_length M ps : length (present_pass M ps) = length ps.
Proof. revert M. induction ps; intros; simpl; auto. Qed.

Lemma difference_absent (M : gmultiset N) c : c ∉ M → M ∖ {[+ c +]} = M.
Proof. multiset_solver. Qed.

Lemma difference_difference (M X : gmultiset N) c :
  M ∖ {[+ c +]} ∖ X = M ∖ ({[+ c +]} ⊎ X).
Proof. multiset_solver. Qed.

Lemma count_loop target :
  holds (for_upto (length target) (count_step target) ∅)
        (list_to_set_disj target).
Proof.
  rewrite <- (take_ge target (length target)) at 3 by done.
  apply (for_upto_invariant
           (λ n counts, holds counts (list_to_set_disj (take n target)))).
  - rewrite take_0. apply holds_empty.
  - intros i counts Hi H.
    destruct (lookup_lt_is_Some_2 target i Hi) as [t Ht].
    rewrite (take_S_r _ _ _ Ht), list_to_set_disj_app. simpl.
    unfold count_step. rewrite Ht.
    replace (list_to_set_disj (take i target) ⊎ ({[+ t +]} ⊎ ∅))
      with ({[+ t +]} ⊎ list_to_set_disj (take i target) : gmultiset N)
      by multiset_solver.
    by apply holds_incr.
Qed.

Lemma correct_loop guess target counts0 :
  holds counts0 (list_to_set_disj target) →
  let ps := align guess target in
  let st := for_upto (length target) (correct_step guess target)
              (Locals (replicate (length target) absent) counts0) in
  result st = mark_correct <$> ps ∧
  holds (counts st) (list_to_set_disj (unmatched ps)).
Proof.
  intros H0 ps st. set (len := length target).
  assert (length ps = len) as Hps by apply align_length.
  cut (result st = (mark_correct <$> take len ps) ++ replicate (len - len) absent
       ∧ holds (counts st)
           (list_to_set_disj (unmatched (take len ps) ++ drop len target))).
  { rewrite Nat.sub_diag, take_ge, drop_ge, !app_nil_r by (unfold len; lia).
    done. }
  apply (for_upto_invariant (λ n st,
    result st = (mark_correct <$> take n ps) ++ replicate (len - n) absent
    ∧ holds (counts st)
        (list_to_set_disj (unmatched (take n ps) ++ drop n target)))).
  { simpl. by rewrite Nat.sub_0_r. }
  intros i [r c] Hi [Hr Hc]; simpl in *.
  destruct (align_lookup_lt guess target i Hi) as (t & Ht & Hp).
  fold ps in Hp.
  rewrite (take_S_r _ _ _ Hp), fmap_app, unmatched_app.
  rewrite (drop_S _ _ _ Ht) in Hc.
  assert (length (mark_correct <$> take i ps) = i) as Hlen
    by (rewrite length_fmap, length_take; lia).
  replace (len - i)%nat with (S (len - S i)) in Hr by lia.
  unfold correct_step; simpl. rewrite Ht.
  unfold unmatched at 2, mark_correct at 2. simpl.
  rewrite filter_cons, filter_nil. unfold matches at 1 2. simpl.
  destruct (decide (guess !! i = Some t)) as [Hm|Hm]; simpl.
  - rewrite decide_False by (intros Hn; by apply Hn). simpl.
    rewrite Hr, Hm, app_nil_r. split.
    + rewrite insert_app_r_alt by lia. rewrite Hlen, Nat.sub_diag. simpl.
      by rewrite <- app_assoc.
    + replace (list_to_set_disj (unmatched (take i ps) ++ drop (S i) target))
        with (list_to_set_disj (unmatched (take i ps) ++ t :: drop (S i) target)
                ∖ {[+ t +]} : gmultiset N).
      * apply holds_decr; [done|].
        rewrite list_to_set_disj_app. simpl. multiset_solver.
      * rewrite !list_to_set_disj_app. simpl. multiset_solver.
  - rewrite decide_True by done. simpl. split.
    + rewrite Hr. simpl. by rewrite <- app_assoc.
    + by rewrite <- app_assoc.
Qed.

Lemma present_loop guess target r1 counts1 :
  let ps := align guess target in
  let M1 := list_to_set_disj (unmatched ps) : gmultiset N in
  r1 = mark_correct <$> ps →
  holds counts1 M1 →
  result (for_upto (length target) (present_step guess) (Locals r1 counts1))
  = present_pass M1 ps.
Proof.
  intros ps M1 Hr1 Hc1. set (len := length target).
  assert (length ps = len) as Hps by apply align_length.
  cut (let st := for_upto len (present_step guess) (Locals r1 counts1) in
       result st = present_pass M1 (take len ps) ++ (mark_correct <$> drop len ps)
       ∧ holds (counts st) (leftover M1 (take len ps))).
  { rewrite take_ge, drop_ge by lia. simpl. rewrite app_nil_r. by intros [-> _]. }
  apply (for_upto_invariant (λ n st,
    result st = present_pass M1 (take n ps) ++ (mark_correct <$> drop n ps)
    ∧ holds (counts st) (leftover M1 (take n ps)))).
  { by rewrite take_0, drop_0. }
  intros i [r c] Hi [Hr Hc]; simpl in *.
  destruct (align_lookup_lt guess target i Hi) as (t & Ht & Hp).
  fold ps in Hp.
  rewrite (take_S_r _ _ _ Hp), present_pass_app.
  unfold leftover at 2. rewrite foldl_app. fold (leftover M1 (take i ps)).
  rewrite (drop_S _ _ _ Hp), fmap_cons in Hr.
  assert (length (present_pass M1 (take i ps)) = i) as Hlen
    by (rewrite present_pass_length, length_take; lia).
  assert (r !! i = Some (mark_correct (guess !! i, t))) as Hri
    by (rewrite Hr; by apply list_lookup_middle).
  set (M := leftover M1 (take i ps)) in *.
  simpl. unfold present_step, mark_present, consume; simpl.
  destruct (decide (matches (guess !! i, t))) as [Hm|Hm]; simpl.
  - assert (mark_correct (guess !! i, t) = correct) as Hmc
      by by apply mark_correct_matches.
    rewrite Hmc in Hr, Hri. rewrite Hri, decide_True by done. simpl.
    by rewrite <- app_assoc.
  - assert (mark_correct (guess !! i, t) = absent) as Hmc
      by (unfold mark_correct; by rewrite decide_False).
    rewrite Hmc in Hr, Hri. rewrite Hri, decide_False by done.
    destruct (guess !! i) as [g|] eqn:Hg; simpl.
    + rewrite (holds_gt0_letter _ M) by done.
      destruct (decide (g ∈ M)) as [Hin|Hin].
      * rewrite bool_decide_eq_true_2 by done. simpl. split.
        -- rewrite Hr, insert_app_r_alt by lia.
           rewrite Hlen, Nat.sub_diag. simpl. by rewrite <- app_assoc.
        -- by apply holds_decr.
      * rewrite bool_decide_eq_false_2 by done. simpl. split.
        -- rewrite Hr, <- app_assoc. done.
        -- by rewrite difference_absent.
    + rewrite (holds_gt0_undefined _ M) by done. simpl. split.
      * rewrite Hr, <- app_assoc. done.
      * done.
Qed.

(** The source's three loops and the structural evaluator agree on
    every guess and target. *)
Lemma evaluateGuess_aligned guess target :
  evaluateGuess guess target = evaluate_aligned (align guess target).
Proof.
  unfold evaluateGuess, evaluate_aligned.
  pose proof (correct_loop guess target _ (count_loop target)) as [Hr Hc].
  destruct (for_upto (length target) (correct_step guess target) _)
    as [r1 c1] eqn:E.
  simpl in Hr, Hc. by apply present_loop.
Qed.

(** ** The evaluator against the algorithm of the specification *)

Lemma align_cons g guess t target :
  align (g :: guess) (t :: target) = (Some g, t) :: align guess target.
Proof. reflexivity. Qed.

Lemma align_snd guess target : snd <$> align guess target = target.
Proof.
  revert guess. induction target as [|t target IH]; intros guess; [done|].
  simpl. by rewrite IH.
Qed.

Lemma matched_unmatched ps :
  list_to_set_disj (snd <$> ps)
  =@{gmultiset N} list_to_set_disj (matched ps) ⊎ list_to_set_disj (unmatched ps).
Proof.
  unfold matched, unmatched. induction ps as [|p ps IH].
  - simpl. multiset_solver.
  - rewrite fmap_cons, !filter_cons, list_to_set_disj_cons, IH.
    destruct (decide (matches p)).
    + rewrite decide_False by (intros Hn; by apply Hn).
      rewrite fmap_cons, list_to_set_disj_cons. multiset_solver.
    + rewrite decide_True by done.
      rewrite fmap_cons, list_to_set_disj_cons. multiset_solver.
Qed.

Lemma unmatched_letters guess target :
  list_to_set_disj (unmatched (align guess target))
  =@{gmultiset N}
  list_to_set_disj target ∖ list_to_set_disj (matched (align guess target)).
Proof.
  rewrite <- (align_snd guess target) at 2. rewrite matched_unmatched.
  multiset_solver.
Qed.

Lemma reference_first_pass guess target M :
  length guess = length target →
  Reference.first_pass guess target M
  = ((λ p, if decide (matches p) then Some correct else None)
       <$> align guess target,
     M ∖ list_to_set_disj (matched (align guess target))).
Proof.
  revert target M.
  induction guess as [|g guess IH]; intros [|t target] M Hlen;
    try discriminate Hlen; simpl.
  - f_equal. multiset_solver.
  - injection Hlen as Hlen. rewrite !IH by done.
    unfold matched. rewrite filter_cons.
    destruct (decide (g = t)) as [->|Hne].
    + assert (matches (Some t, t)) as Hm by done.
      rewrite !(decide_True _ _ Hm).
      rewrite fmap_cons, list_to_set_disj_cons. f_equal.
      apply difference_difference.
    + assert (¬ matches (Some g, t)) as Hm by (unfold matches; naive_solver).
      by rewrite !(decide_False _ _ Hm).
Qed.

Lemma reference_second_pass guess target M :
  length guess = length target →
  Reference.second_pass guess
    ((λ p, if decide (matches p) then Some correct else None)
       <$> align guess target) M
  = present_pass M (align guess target).
Proof.
  revert target M.
  induction guess as [|g guess IH]; intros [|t target] M Hlen;
    try discriminate Hlen; simpl; [done|].
  injection Hlen as Hlen.
  unfold mark_present, consume. simpl.
  destruct (decide (matches (Some g, t))); simpl.
  - by rewrite IH.
  - destruct (decide (g ∈ M)) as [Hin|Hin].
    + rewrite decide_True by by apply elem_of_multiplicity.
      by rewrite IH.
    + rewrite decide_False by by rewrite <- elem_of_multiplicity.
      rewrite IH by done. by rewrite difference_absent.
Qed.

(** C1. For every guess and target of equal length, [evaluateGuess]
    returns what the two-pass algorithm of the specification returns:
    the multiset of the target's letters, a first pass that marks the
    exact matches [correct] and takes their letters out, a second pass
    that marks [present] and takes the letter out where some is left and
    marks [absent] otherwise. *)
Theorem evaluateGuess_refines_reference (guess target : jsstring) :
  length guess = length target →
  evaluateGuess guess target = Reference.evaluate guess target.
Proof.
  intros Hlen. rewrite evaluateGuess_aligned.
  unfold Reference.evaluate, Reference.letter_counts, evaluate_aligned.
  rewrite reference_first_pass by done.
  rewrite reference_second_pass by done.
  by rewrite unmatched_letters.
Qed.

Lemma evaluateGuess_refines_reference_witness :
  evaluateGuess (js "PAPAL") (js "APPLE")
  = Reference.evaluate (js "PAPAL") (js "APPLE").
Proof. apply evaluateGuess_refines_reference. reflexivity. Defined.

(** ** Counting statuses *)

Lemma multiplicity_letters c (l : jsstring) :
  multiplicity c (list_to_set_disj l : gmultiset N) = occurrences c l.
Proof.
  unfold occurrences. induction l as [|x l IH]; [done|].
  rewrite list_to_set_disj_cons, multiplicity_disj_union, IH, filter_cons.
  rewrite multiplicity_singleton.
  destruct (decide (c = x)); simpl; lia.
Qed.

Lemma matches_pair g t : matches (Some g, t) ↔ g = t.
Proof. unfold matches. naive_solver. Qed.

Lemma mark_present_match M t : mark_present M (Some t, t) = correct.
Proof. unfold mark_present. by rewrite decide_True. Qed.

Lemma consume_match M t : consume M (Some t, t) = M.
Proof. unfold consume. by rewrite decide_True. Qed.

Lemma mark_present_other M g t :
  g ≠ t →
  mark_present M (Some g, t) = if decide (g ∈ M) then present else absent.
Proof.
  intros Hne. unfold mark_present.
  by rewrite decide_False by by rewrite matches_pair.
Qed.

Lemma consume_other M g t : g ≠ t → consume M (Some g, t) = M ∖ {[+ g +]}.
Proof.
  intros Hne. unfold consume.
  by rewrite decide_False by by rewrite matches_pair.
Qed.

Lemma count_correct_aligned M guess target :
  length guess = length target →
  count_status correct (present_pass M (align guess target))
  = exact_matches guess target.
Proof.
  unfold count_status, exact_matches. revert target M.
  induction guess as [|g guess IH]; intros [|t target] M Hlen;
    try discriminate Hlen; [done|].
  injection Hlen as Hlen. rewrite align_cons. simpl.
  destruct (decide (g = t)) as [->|Hne].
  - rewrite mark_present_match.
    rewrite !filter_cons_True by done. simpl. by rewrite IH.
  - rewrite mark_present_other by done.
    rewrite (filter_cons_False _ (g, t)) by done.
    destruct (decide (g ∈ M)); rewrite filter_cons_False by done; by apply IH.
Qed.

Lemma marked_aligned c M guess target :
  length guess = length target →
  (marked c guess (present_pass M (align guess target))
   ≤ occurrences c (matched (align guess target)) + multiplicity c M)%nat.
Proof.
  unfold marked, occurrences, matched. revert target M.
  induction guess as [|g guess IH]; intros [|t target] M Hlen;
    try discriminate Hlen; [simpl; lia|].
  injection Hlen as Hlen. rewrite align_cons. simpl.
  specialize (IH target (consume M (Some g, t)) Hlen).
  destruct (decide (g = t)) as [->|Hne].
  - rewrite mark_present_match. rewrite consume_match in *.
    rewrite (filter_cons_True matches) by done. rewrite fmap_cons. simpl.
    destruct (decide (t = c)) as [->|Hc].
    + rewrite !filter_cons_True by auto. simpl. lia.
    + rewrite (filter_cons_False _ (t, correct)) by (simpl; tauto).
      rewrite (filter_cons_False (eq c)) by congruence. lia.
  - rewrite mark_present_other by done. rewrite consume_other in * by done.
    rewrite (filter_cons_False matches) by by rewrite matches_pair.
    rewrite multiplicity_difference in IH.
    destruct (decide (g ∈ M)) as [Hin|Hin].
    + rewrite elem_of_multiplicity in Hin.
      destruct (decide (g = c)) as [->|Hc].
      * rewrite filter_cons_True by auto.
        rewrite multiplicity_singleton_eq in IH. simpl. lia.
      * rewrite filter_cons_False by (simpl; tauto).
        rewrite multiplicity_singleton_ne in IH by congruence. lia.
    + rewrite filter_cons_False by (simpl; intros [_ [?|?]]; done). lia.
Qed.

(** C4. For guess and target of equal length: as many [correct]
    statuses as positions where the two strings agree, and for every
    letter no more positions of the guess with that letter marked
    [correct] or [present] than the target has occurrences of it. *)
Theorem evaluateGuess_counts (guess target : jsstring) :
  length guess = length target →
  count_status correct (evaluateGuess guess target) = exact_matches guess target
  ∧ ∀ c, (marked c guess (evaluateGuess guess target) ≤ occurrences c target)%nat.
Proof.
  intros Hlen. rewrite evaluateGuess_aligned. unfold evaluate_aligned. split.
  - by apply count_correct_aligned.
  - intros c.
    pose proof (marked_aligned c
      (list_to_set_disj (unmatched (align guess target))) guess target Hlen) as H.
    rewrite <- (multiplicity_letters c target).
    rewrite <- (align_snd guess target) at 3.
    rewrite matched_unmatched, multiplicity_disj_union.
    by rewrite (multiplicity_letters c (matched _)).
Qed.

Lemma evaluateGuess_counts_witness :
  count_status correct (evaluateGuess (js "LLAMA") (js "ALLOY"))
  = exact_matches (js "LLAMA") (js "ALLOY")
  ∧ ∀ c, (marked c (js "LLAMA") (evaluateGuess (js "LLAMA") (js "ALLOY"))
          ≤ occurrences c (js "ALLOY"))%nat.
Proof. apply evaluateGuess_counts. reflexivity. Defined.

(** ** Guesses of any length *)

Lemma present_pass_lookup M ps i p :
  ps !! i = Some p →
  present_pass M ps !! i = Some (mark_present (leftover M (take i ps)) p).
Proof.
  revert M i. induction ps as [|q ps IH]; intros M [|i] Hp; simplify_eq/=.
  - done.
  - by apply IH.
Qed.

Lemma align_take guess target :
  align (take (length target) guess) target = align guess target.
Proof.
  revert guess. induction target as [|t target IH]; intros [|g guess]; simpl;
    try done.
  by rewrite IH.
Qed.

(** Every write [result[i] = ...] of the two passes is inside the
    array: the loops keep its length, and their indices are below it. *)
Lemma correct_step_length guess target st i :
  length (result (correct_step guess target st i)) = length (result st).
Proof. unfold correct_step. case_decide; simpl; by rewrite ?length_insert. Qed.

Lemma present_step_length guess st i :
  length (result (present_step guess st i)) = length (result st).
Proof.
  unfold present_step. case_decide; [done|].
  destruct (js_gt0 _); simpl; by rewrite ?length_insert.
Qed.

Lemma evaluateGuess_length guess target :
  length (evaluateGuess guess target) = length target.
Proof.
  rewrite evaluateGuess_aligned. unfold evaluate_aligned.
  by rewrite present_pass_length, align_length.
Qed.

(** C10. [evaluateGuess] returns, for every guess, one status for each
    position of the target; the positions past the end of the guess are
    [absent], and the code units of the guess past the end of the target
    play no part. *)
Theorem evaluateGuess_any_length (guess target : jsstring) :
  length (evaluateGuess guess target) = length target
  ∧ (∀ i, (length guess ≤ i < length target)%nat →
          evaluateGuess guess target !! i = Some absent)
  ∧ evaluateGuess guess target
    = evaluateGuess (take (length target) guess) target.
Proof.
  split; [apply evaluateGuess_length|].
  rewrite !evaluateGuess_aligned. unfold evaluate_aligned. split.
  - intros i [Hg Ht].
    destruct (align_lookup_lt guess target i Ht) as (t & _ & Hp).
    rewrite (present_pass_lookup _ _ _ _ Hp).
    rewrite (lookup_ge_None_2 guess i Hg). done.
  - by rewrite align_take.
Qed.

(** ** The worked examples of the specification *)

(** C2. Guess "PAPAL" against target "APPLE" gives present, present,
    correct, absent, present. *)
Theorem evaluateGuess_PAPAL_APPLE :
  evaluateGuess (js "PAPAL") (js "APPLE")
  = [present; present; correct; absent; present].
Proof. vm_compute. reflexivity. Qed.

(** The guess "LLAMA" against the target "ALLOY": the two L of the
    guess are at positions 0 and 1. *)
Lemma evaluateGuess_LLAMA_ALLOY :
  evaluateGuess (js "LLAMA") (js "ALLOY")
  = [present; correct; present; absent; absent].
Proof. vm_compute. reflexivity. Qed.

(** C5, as the specification states it, fails: of the two L positions
    of "LLAMA" it is not so that exactly one is marked and the other is
    [absent]; "ALLOY" has two L, and both positions are marked. *)
Lemma evaluateGuess_LLAMA_ALLOY_both_L_marked :
  let r := evaluateGuess (js "LLAMA") (js "ALLOY") in
  js "LLAMA" !! 0%nat = Some (N_of_ascii "L") ∧
  js "LLAMA" !! 1%nat = Some (N_of_ascii "L") ∧
  occurrences (N_of_ascii "L") (js "LLAMA") = 2%nat ∧
  ¬ ((r !! 0%nat ≠ Some absent ∧ r !! 1%nat = Some absent)
     ∨ (r !! 0%nat = Some absent ∧ r !! 1%nat ≠ Some absent)).
Proof.
  rewrite evaluateGuess_LLAMA_ALLOY. simpl.
  repeat split; try reflexivity.
  intros [[_ H]|[H _]]; discriminate H.
Qed.

(** C5, amended. Against "ALLOY", which has two L and one A, "LLAMA"
    gives present, correct, present, absent, absent: both its L are
    marked, [present] at position 0 and [correct] at position 1; it is
    of its two A, at positions 2 and 4, that exactly one is marked,
    [present], and the other is [absent]. *)
Theorem evaluateGuess_LLAMA_ALLOY_marks :
  let r := evaluateGuess (js "LLAMA") (js "ALLOY") in
  r = [present; correct; present; absent; absent] ∧
  occurrences (N_of_ascii "L") (js "ALLOY") = 2%nat ∧
  js "LLAMA" !! 0%nat = Some (N_of_ascii "L") ∧
  js "LLAMA" !! 1%nat = Some (N_of_ascii "L") ∧
  r !! 0%nat = Some present ∧ r !! 1%nat = Some correct ∧
  occurrences (N_of_ascii "A") (js "LLAMA") = 2%nat ∧
  occurrences (N_of_ascii "A") (js "ALLOY") = 1%nat ∧
  js "LLAMA" !! 2%nat = Some (N_of_ascii "A") ∧
  js "LLAMA" !! 4%nat = Some (N_of_ascii "A") ∧
  r !! 2%nat = Some present ∧ r !! 4%nat = Some absent.
Proof. rewrite evaluateGuess_LLAMA_ALLOY. vm_compute. repeat split. Qed.

(** ** The daily selector *)

Lemma epoch_whole_days : epoch = 20089 ∧ epoch * MS_PER_DAY = UTC_2025_01_01.
Proof. split; reflexivity. Qed.

Lemma to_uint32_range z : 0 ≤ to_uint32 z < 2 ^ 32.
Proof. unfold to_uint32. apply Z.mod_pos_bound. lia. Qed.

(** From 2^53 on, every other integer is lost, a tie goes to the even
    significand. *)
Example fl53_rounds :
  fl53 (2 ^ 53 + 1) = 2 ^ 53 ∧ fl53 (2 ^ 53 + 3) = 2 ^ 53 + 4
  ∧ fl53 (- (2 ^ 53 + 3)) = - (2 ^ 53 + 4) ∧ fl53 (2 ^ 54 + 6) = 2 ^ 54 + 8.
Proof. repeat split. Qed.

(** 3 November 2025 is day 306; with "en" and three words the index
    is 1. *)
Example dailyIndex_2025_11_03 :
  dayNumber 1762128000000 = 306 ∧ lang_hash (js "en") = 3241
  ∧ mix 306 3241 = 2668231468
  ∧ dailyIndex 1762128000000 [js "APPLE"; js "HOUSE"; js "ALLOY"] (js "en")
    = Num 1.
Proof. repeat split. Qed.

Lemma fl53_exact z : Z.abs z < 2 ^ 53 → fl53 z = z.
Proof. intros H. unfold fl53. by rewrite decide_True. Qed.

Lemma lang_hash_range lang : 0 ≤ lang_hash lang < 2 ^ 32.
Proof.
  unfold lang_hash.
  apply (for_upto_invariant (λ _ h, 0 ≤ h < 2 ^ 32)); [lia|].
  intros i h _ _. unfold hash_step.
  destruct (lang !! i); [apply to_uint32_range | lia].
Qed.

(** Below 2^53 nothing is rounded: the hash is the polynomial hash
    modulo 2^32, and the mix is the linear mix of the specification. *)
Lemma hash_step_exact lang h i c :
  0 ≤ h < 2 ^ 32 → lang !! i = Some c → (c < 2 ^ 16)%N →
  hash_step lang h i = (h * 31 + Z.of_N c) mod 2 ^ 32.
Proof.
  intros Hh Hc Hu. unfold hash_step, to_uint32. rewrite Hc.
  rewrite (fl53_exact (h * 31)) by lia.
  rewrite fl53_exact; [done|].
  assert (Z.of_N c < 2 ^ 16) by lia. lia.
Qed.

Lemma mix_exact d h :
  0 ≤ h < 2 ^ 32 → Z.abs d ≤ 8000000 →
  mix d h = (d * 1103515245 + 12345 + h) mod 2 ^ 32.
Proof.
  intros Hh Hd. unfold mix, to_uint32.
  rewrite (fl53_exact (d * 1103515245)) by lia.
  rewrite (fl53_exact (d * 1103515245 + 12345)) by lia.
  rewrite fl53_exact by lia. done.
Qed.

Lemma dailyIndex_nonempty now words lang :
  words ≠ [] →
  dailyIndex now words lang
  = Num (mix (dayNumber now) (lang_hash lang) mod Z.of_nat (length words)).
Proof.
  intros Hne. unfold dailyIndex.
  rewrite decide_False; [done|]. by destruct words.
Qed.

(** C8. On a non-empty list, for every language tag and timestamp, the
    index is an integer from 0 up to, and not including, the length of
    the list. *)
Theorem dailyIndex_in_range (now : Z) (words : list jsstring) (lang : jsstring) :
  words ≠ [] →
  ∃ idx, dailyIndex now words lang = Num idx
         ∧ 0 ≤ idx < Z.of_nat (length words).
Proof.
  intros Hne. eexists. split; [by apply dailyIndex_nonempty|].
  apply Z.mod_pos_bound. destruct words; [done|]. simpl. lia.
Qed.

Lemma dailyIndex_in_range_witness :
  ∃ idx, dailyIndex 1762128000000 [js "APPLE"; js "HOUSE"; js "ALLOY"] (js "en")
         = Num idx
         ∧ 0 ≤ idx < Z.of_nat (length [js "APPLE"; js "HOUSE"; js "ALLOY"]).
Proof. apply dailyIndex_in_range. discriminate. Defined.

(** C3. On a non-empty list, two timestamps of the same UTC day give
    the same index; the index is a function of the day number, the
    language tag and the list. *)
Theorem dailyIndex_same_day (words : list jsstring) (lang : jsstring)
    (now1 now2 : Z) :
  words ≠ [] →
  dayId now1 = dayId now2 →
  dailyIndex now1 words lang = dailyIndex now2 words lang
  ∧ ∃ F : Z → jsstring → list jsstring → jsnum,
      ∀ now words' lang', dailyIndex now words' lang' = F (dayId now) lang' words'.
Proof.
  intros _ Hday. unfold dailyIndex, dayNumber. fold (dayId now1) (dayId now2).
  rewrite Hday. split; [done|].
  exists (λ day lang' words',
    if decide (length words' = 0%nat) then NaN
    else Num (mix (day - epoch) (lang_hash lang') mod Z.of_nat (length words'))).
  done.
Qed.

Lemma dailyIndex_same_day_witness :
  dailyIndex 1762128000000 [js "APPLE"; js "HOUSE"; js "ALLOY"] (js "en")
  = dailyIndex 1762214399999 [js "APPLE"; js "HOUSE"; js "ALLOY"] (js "en")
  ∧ ∃ F : Z → jsstring → list jsstring → jsnum,
      ∀ now words' lang', dailyIndex now words' lang' = F (dayId now) lang' words'.
Proof. apply dailyIndex_same_day; [discriminate | reflexivity]. Defined.

(** ** The guards of the session controller *)

(** [showMessage] writes the toast only, and only on a page that has
    it. *)
Lemma showMessage_currentLang text g :
  currentLang (showMessage text g) = currentLang g.
Proof. unfold showMessage. by destruct g as [? ? ? ? ? ? ? ? []]. Qed.

Lemma showMessage_targetWord text g :
  targetWord (showMessage text g) = targetWord g.
Proof. unfold showMessage. by destruct g as [? ? ? ? ? ? ? ? []]. Qed.

Lemma showMessage_attempts text g : attempts (showMessage text g) = attempts g.
Proof. unfold showMessage. by destruct g as [? ? ? ? ? ? ? ? []]. Qed.

Lemma showMessage_currentGuess text g :
  currentGuess (showMessage text g) = currentGuess g.
Proof. unfold showMessage. by destruct g as [? ? ? ? ? ? ? ? []]. Qed.

Lemma showMessage_gameOver text g : gameOver (showMessage text g) = gameOver g.
Proof. unfold showMessage. by destruct g as [? ? ? ? ? ? ? ? []]. Qed.

Lemma showMessage_firstLoad text g :
  firstLoad (showMessage text g) = firstLoad g.
Proof. unfold showMessage. by destruct g as [? ? ? ? ? ? ? ? []]. Qed.

Lemma showMessage_toastEl text g : toastEl (showMessage text g) = toastEl g.
Proof. unfold showMessage. by destruct g as [? ? ? ? ? ? ? ? []]. Qed.

Lemma showMessage_toast text g :
  toast (showMessage text g) = if toastEl g then Some text else toast g.
Proof. unfold showMessage. by destruct g as [? ? ? ? ? ? ? ? []]. Qed.

(** A later message replaces an earlier one. *)
Lemma showMessage_showMessage text1 text2 g :
  showMessage text2 (showMessage text1 g) = showMessage text2 g.
Proof.
  unfold showMessage. destruct g as [? ? ? ? ? ? ? ? el]. simpl.
  by destruct el.
Qed.

Ltac show_message :=
  rewrite ?showMessage_currentLang, ?showMessage_targetWord,
    ?showMessage_attempts, ?showMessage_currentGuess, ?showMessage_gameOver,
    ?showMessage_firstLoad, ?showMessage_toastEl.

(** [dailyIndex] itself has no guard: on the empty list, [mix % 0] is
    [NaN], and [words[NaN]] is [undefined]. *)
Lemma dailyIndex_empty now lang :
  dailyIndex now [] lang = NaN ∧ word_at [] (dailyIndex now [] lang) = None.
Proof. done. Qed.

(** On a non-empty list and without override, [pickWord] returns a
    word of the list: the index is inside it. *)
Lemma pickWord_in_list (w : wordlists) (now : Z) (g : game) :
  listFor w (currentLang g) ≠ [] →
  manualOverride g = None →
  ∃ word, pickWord w now g = Some word ∧ word ∈ listFor w (currentLang g).
Proof.
  intros Hne Hno. unfold pickWord. rewrite Hno. simpl.
  rewrite decide_False by by destruct (listFor w (currentLang g)).
  rewrite dailyIndex_nonempty by done. unfold word_at.
  set (words := listFor w (currentLang g)) in *.
  assert (0 < Z.of_nat (length words)) as Hpos by (destruct words; [done|simpl; lia]).
  pose proof (Z.mod_pos_bound (mix (dayNumber now) (lang_hash (currentLang g)))
                _ Hpos) as Hidx.
  rewrite decide_True by lia.
  destruct (lookup_lt_is_Some_2 words
              (Z.to_nat (mix (dayNumber now) (lang_hash (currentLang g))
                         mod Z.of_nat (length words)))) as [word Hword]; [lia|].
  exists word. split; [done|]. by apply list_elem_of_lookup_2 in Hword.
Qed.

(** C6. When the list of the language is empty, [pickWord] returns the
    empty string without selecting, and [startGame], which tests it,
    shows "No words loaded" and starts no game: the variables keep their
    values. *)
Theorem pickWord_empty_list (w : wordlists) (now : Z) (g : game) :
  listFor w (currentLang g) = [] →
  pickWord w now g = Some []
  ∧ ∀ g0 restored manualSwitch,
      restoreLang now restored manualSwitch g0 = g →
      startGame w now restored manualSwitch g0
      = showMessage (js "No words loaded") g.
Proof.
  intros Hempty.
  assert (pickWord w now g = Some []) as Hpick
    by (unfold pickWord; by rewrite Hempty).
  split; [done|].
  intros g0 restored manualSwitch Hg. unfold startGame.
  by rewrite Hg, Hpick.
Qed.

Lemma pickWord_empty_list_witness :
  let w := Wordlists [] [js "HOUSE"] ∅ ∅ in
  let g := Game (js "en") [] [] [] false true None None true in
  pickWord w 1762128000000 g = Some []
  ∧ ∀ g0 restored manualSwitch,
      restoreLang 1762128000000 restored manualSwitch g0 = g →
      startGame w 1762128000000 restored manualSwitch g0
      = showMessage (js "No words loaded") g.
Proof. apply pickWord_empty_list. reflexivity. Defined.

(** C7, as the specification states it, fails: on a guess shorter than
    the target [evaluateGuess] ends normally, with an array. *)
Lemma evaluateGuess_no_fail_fast :
  length (js "AB") ≠ length (js "ABC")
  ∧ evaluateGuess_completion (js "AB") (js "ABC")
    = Normal [correct; correct; absent]
  ∧ ¬ (∀ guess target : jsstring,
         length guess ≠ length target →
         ∃ e, evaluateGuess_completion guess target = Throw e).
Proof.
  split; [discriminate|]. split; [vm_compute; reflexivity|].
  intros H. destruct (H (js "AB") (js "ABC")) as [e He]; discriminate.
Qed.

(** C7, amended. [evaluateGuess] does not fail fast: for every guess and
    target, of equal length or not, it throws nothing and returns one
    status for each position of the target.  The check of the lengths
    is its caller's: in a game that is not over, when the length of
    [currentGuess] is not that of [targetWord], [submitGuess] only
    calls [showMessage('Not enough letters')] and records no attempt;
    the attempts and the row being typed stay as they are. *)
Theorem evaluateGuess_length_guard (w : wordlists) (g : game) :
  gameOver g = false →
  length (currentGuess g) ≠ length (targetWord g) →
  (∀ guess target : jsstring,
     ∃ r, evaluateGuess_completion guess target = Normal r
          ∧ length r = length target)
  ∧ submitGuess w g = showMessage (js "Not enough letters") g
  ∧ attempts (submitGuess w g) = attempts g
  ∧ currentGuess (submitGuess w g) = currentGuess g.
Proof.
  intros Hover Hlen. split.
  - intros guess target. eexists. split; [done|]. apply evaluateGuess_length.
  - unfold submitGuess. rewrite Hover, decide_True by done.
    split; [done|]. by show_message.
Qed.

Lemma evaluateGuess_length_guard_witness :
  let w := Wordlists [js "ABC"] [] ∅ ∅ in
  let g := Game (js "en") (js "ABC") [] (js "AB")
                false false None None true in
  (∀ guess target : jsstring,
     ∃ r, evaluateGuess_completion guess target = Normal r
          ∧ length r = length target)
  ∧ submitGuess w g = showMessage (js "Not enough letters") g
  ∧ attempts (submitGuess w g) = attempts g
  ∧ currentGuess (submitGuess w g) = currentGuess g.
Proof. apply evaluateGuess_length_guard; [reflexivity | discriminate]. Defined.

(** Every attempt that [submitGuess] records has the target's length. *)
Lemma submitGuess_attempt_lengths (w : wordlists) (g : game) :
  Forall (λ a, length a = length (targetWord g)) (attempts g) →
  targetWord (submitGuess w g) = targetWord g
  ∧ Forall (λ a, length a = length (targetWord g)) (attempts (submitGuess w g)).
Proof.
  intros Hall. unfold submitGuess.
  destruct (gameOver g); [done|].
  destruct (decide (length (currentGuess g) ≠ length (targetWord g)))
    as [|Hlen]; [by show_message|].
  apply dec_stable in Hlen.
  destruct (bool_decide _); [by show_message|].
  assert (Forall (λ a, length a = length (targetWord g))
            (attempts g ++ [currentGuess g])) as Hall'.
  { apply Forall_app. split; [done|]. by apply Forall_singleton. }
  repeat case_decide; by show_message.
Qed.

(** ** The keyboard map *)

Lemma hint_step_lookup l st hints k :
  hint_step l st hints !! k
  = if decide (l = k) then Some (stronger (hints !! k) (default absent st))
    else hints !! k.
Proof.
  unfold hint_step.
  destruct (decide (l = k)) as [->|Hne].
  - destruct st as [[]|]; simpl; repeat case_decide;
      rewrite ?lookup_insert_eq; try done;
      destruct (hints !! k) as [[]|]; simpl in *; try done; lia.
  - destruct st as [[]|]; simpl; repeat case_decide;
      by rewrite ?lookup_insert_ne.
Qed.

Lemma strength_inj s1 s2 : strength s1 = strength s2 → s1 = s2.
Proof. by destruct s1, s2. Qed.

(** Inside the target, the status shown is the status evaluated. *)
Lemma shown_status_evaluated target a i :
  (i < length target)%nat →
  evaluateGuess a target !! i = Some (shown_status target a i).
Proof.
  intros Hi. unfold shown_status.
  destruct (lookup_lt_is_Some_2 (evaluateGuess a target) i) as [s ->];
    [by rewrite evaluateGuess_length | done].
Qed.

Example computeStatuses_two_attempts :
  let g := Game (js "en") (js "APPLE") [js "PAPAL"; js "ALLOY"] []
                false false None None true in
  computeStatuses g !! Some (N_of_ascii "A") = Some correct
  ∧ computeStatuses g !! Some (N_of_ascii "L") = Some present
  ∧ computeStatuses g !! Some (N_of_ascii "Y") = Some absent
  ∧ computeStatuses g !! Some (N_of_ascii "E") = None.
Proof. vm_compute. repeat split. Qed.

Lemma right_for_iff hints (Obs Obs' : N → status → Prop) :
  (∀ l s, Obs l s ↔ Obs' l s) → right_for hints Obs → right_for hints Obs'.
Proof.
  intros Hiff [Hu H]. split; [done|]. intros l. specialize (H l).
  destruct (hints !! Some l) as [s|].
  - destruct H as [Hs Hmax]. split; [by apply Hiff|].
    intros s' Hs'. apply Hmax. by apply Hiff.
  - intros s Hs. apply (H s). by apply Hiff.
Qed.

Lemma right_for_empty : right_for ∅ (λ _ _, False).
Proof. split; [done|]. intros l. rewrite lookup_empty. tauto. Qed.

Lemma right_for_step hints Obs l st :
  right_for hints Obs →
  right_for (hint_step (Some l) st hints)
            (λ l' s', Obs l' s' ∨ (l' = l ∧ s' = default absent st)).
Proof.
  intros [Hu H]. split.
  - by rewrite hint_step_lookup, decide_False.
  - intros k. rewrite hint_step_lookup. specialize (H k).
    destruct (decide (Some l = Some k)) as [[= ->]|Hne].
    + unfold stronger. destruct (hints !! Some k) as [o|].
      * destruct H as [Ho Hmax]. case_decide.
        -- split; [by right|]. intros s' [Hs'|[_ ->]]; [|lia].
           specialize (Hmax s' Hs'). lia.
        -- split; [by left|]. intros s' [Hs'|[_ ->]]; [by apply Hmax|lia].
      * split; [by right|]. intros s' [Hs'|[_ ->]]; [|lia].
        by destruct (H s').
    + assert (k ≠ l) as Hkl by congruence.
      destruct (hints !! Some k) as [o|].
      * destruct H as [Ho Hmax]. split; [by left|].
        intros s' [Hs'|[? _]]; [by apply Hmax|done].
      * intros s [Hs|[? _]]; [by apply (H s)|done].
Qed.

Lemma right_for_attempt target a hints Obs :
  right_for hints Obs →
  right_for
    (for_upto (length a)
       (λ hints i, hint_step (a !! i) (evaluateGuess a target !! i) hints)
       hints)
    (λ l s, Obs l s ∨ ∃ i, a !! i = Some l ∧ shown_status target a i = s).
Proof.
  intros H0.
  apply (right_for_iff _ (λ l s,
    Obs l s ∨ ∃ i, (i < length a)%nat ∧ a !! i = Some l
                   ∧ shown_status target a i = s)).
  { intros l s. split; intros [?|(i & Hi)]; auto; right; exists i.
    - tauto.
    - split; [|done]. apply lookup_lt_Some with l. tauto. }
  apply (for_upto_invariant (λ n hints, right_for hints (λ l s,
    Obs l s ∨ ∃ i, (i < n)%nat ∧ a !! i = Some l
                   ∧ shown_status target a i = s))).
  - revert H0. apply right_for_iff. intros l s. split; [auto|].
    intros [?|(i & Hi & _)]; [done|lia].
  - intros n hints' Hn H.
    destruct (lookup_lt_is_Some_2 a n Hn) as [c Hc]. rewrite Hc.
    apply (right_for_step _ _ c (evaluateGuess a target !! n)) in H.
    revert H. apply right_for_iff. intros l s. unfold shown_status.
    split.
    + intros [[?|(i & Hi & Hl & Hs)]|[-> ->]]; [by left| |].
      * right. exists i. split; [lia|done].
      * right. exists n. split; [lia|done].
    + intros [?|(i & Hi & Hl & Hs)]; [by left; left|].
      destruct (decide (i = n)) as [->|Hne].
      * right. split; [congruence|done].
      * left. right. exists i. split; [lia|done].
Qed.

Lemma right_for_attempts target (history : list jsstring) hints Obs :
  right_for hints Obs →
  right_for
    (foldl (λ hints a,
              for_upto (length a)
                (λ hints i, hint_step (a !! i) (evaluateGuess a target !! i) hints)
                hints)
           hints history)
    (λ l s, Obs l s ∨ ∃ a i, a ∈ history ∧ a !! i = Some l
                             ∧ shown_status target a i = s).
Proof.
  revert hints Obs. induction history as [|a history IH]; intros hints Obs H.
  - simpl. revert H. apply right_for_iff. intros l s. split; [auto|].
    intros [?|(a & i & Ha & _)]; [done|]. by apply elem_of_nil in Ha.
  - simpl. apply (right_for_attempt target a) in H. apply IH in H.
    revert H. apply right_for_iff. intros l s. split.
    + intros [[?|(i & Hi)]|(b & i & Hb & Hi)]; [by left| |].
      * right. exists a, i. split; [apply elem_of_cons; by left|done].
      * right. exists b, i. split; [apply elem_of_cons; by right|done].
    + intros [?|(b & i & Hb & Hi)]; [by left; left|].
      apply elem_of_cons in Hb as [->|Hb].
      * left. right. by exists i.
      * right. by exists b, i.
Qed.

Lemma computeStatuses_right g : right_for (computeStatuses g) (observed g).
Proof.
  unfold computeStatuses.
  pose proof (right_for_attempts (targetWord g) (attempts g) ∅ _ right_for_empty)
    as H.
  revert H. apply right_for_iff. intros l s. unfold observed. split.
  - by intros [[]|H].
  - by right.
Qed.

(** C9. For every history of attempts, the keyboard map gives each
    letter the strongest status observed for it at any position of any
    attempt, with [correct] above [present] above [absent], and none to
    a letter never observed: a letter once observed [correct] is
    [correct], a letter observed [present] is not [absent]; and the map
    depends on the history and the target only, so that computing it
    again from them gives the same map. *)
Theorem computeStatuses_strongest (g : game) (l : code_unit) :
  (computeStatuses g !! Some l = None ↔ ∀ s, ¬ observed g l s)
  ∧ (∀ s, computeStatuses g !! Some l = Some s ↔
          observed g l s
          ∧ ∀ s', observed g l s' → (strength s' ≤ strength s)%nat)
  ∧ (observed g l correct → computeStatuses g !! Some l = Some correct)
  ∧ (observed g l present → computeStatuses g !! Some l ≠ Some absent)
  ∧ (∀ g', attempts g' = attempts g → targetWord g' = targetWord g →
           computeStatuses g' = computeStatuses g).
Proof.
  destruct (computeStatuses_right g) as [_ H]. specialize (H l).
  assert (∀ s, computeStatuses g !! Some l = Some s ↔
            observed g l s
            ∧ ∀ s', observed g l s' → (strength s' ≤ strength s)%nat) as Hmax.
  { intros s. destruct (computeStatuses g !! Some l) as [o|].
    - destruct H as [Ho Hmax]. split.
      + by intros [= <-].
      + intros [Hs Hs']. f_equal. apply strength_inj.
        specialize (Hmax s Hs). specialize (Hs' o Ho). lia.
    - split; [done|]. intros [Hs _]. by destruct (H s). }
  split; [|split; [done|split; [|split]]].
  - destruct (computeStatuses g !! Some l) as [o|].
    + destruct H as [Ho _]. split; [done|]. intros Hno. by destruct (Hno o).
    + done.
  - intros Hc. apply Hmax. split; [done|]. intros s' _. destruct s'; simpl; lia.
  - intros Hp Ha. apply Hmax in Ha as [_ Ha]. specialize (Ha present Hp).
    simpl in Ha. lia.
  - intros g' Ha Ht. unfold computeStatuses. by rewrite Ha, Ht.
Qed.

(** * Further properties of the code *)

(** ** [xorDecode] *)

Arguments to_int32 : simpl never.
Arguments charCodeAt : simpl never.
Arguments fromCharCode : simpl never.

Lemma lxor_below a b n :
  0 ≤ n → 0 ≤ a < 2 ^ n → 0 ≤ b < 2 ^ n → 0 ≤ Z.lxor a b < 2 ^ n.
Proof.
  intros Hn Ha Hb.
  assert (0 ≤ Z.lxor a b) as Hnonneg by (apply Z.lxor_nonneg; lia).
  split; [done|].
  destruct (decide (Z.lxor a b = 0)) as [->|Hne]; [lia|].
  assert (0 < n) as Hpos.
  { destruct (decide (n = 0)) as [->|]; [|lia].
    assert (a = 0) as -> by lia. assert (b = 0) as -> by lia. done. }
  apply Z.log2_lt_pow2; [lia|].
  eapply Z.le_lt_trans; [apply Z.log2_lxor; lia|].
  apply Z.max_lub_lt.
  - destruct (decide (a = 0)) as [->|]; [simpl; lia|].
    apply Z.log2_lt_pow2; lia.
  - destruct (decide (b = 0)) as [->|]; [simpl; lia|].
    apply Z.log2_lt_pow2; lia.
Qed.

Lemma to_int32_small z : 0 ≤ z < 2 ^ 16 → to_int32 (Num z) = z.
Proof.
  intros Hz. unfold to_int32. rewrite Z.mod_small; lia.
Qed.

(** The operand that the key gives at index [i]: a code unit of the
    key, or 0 when the key is empty. *)
Lemma key_operand_below key i :
  utf16 key →
  0 ≤ to_int32 (charCodeAt key (js_rem i (length key))) < 2 ^ 16.
Proof.
  intros Hkey. unfold js_rem, charCodeAt.
  destruct (decide (length key = 0%nat)) as [Hlen|Hlen].
  - destruct key; [|done]. vm_compute. split; [discriminate|done].
  - rewrite decide_True by lia. rewrite Nat2Z.id.
    destruct (lookup_lt_is_Some_2 key (i mod length key)) as [c Hc].
    { by apply Nat.mod_upper_bound. }
    rewrite Hc.
    assert (c < 2 ^ 16)%N as Hlt
      by (eapply Forall_lookup_1 in Hkey; [|exact Hc]; done).
    assert (0 ≤ Z.of_N c < 2 ^ 16) as Hz by lia.
    by rewrite to_int32_small.
Qed.

Lemma xor_unit c k :
  (c < 2 ^ 16)%N → 0 ≤ k < 2 ^ 16 →
  fromCharCode (Z.lxor (to_int32 (charCodeAt [c] (Num 0))) k)
  = Z.to_N (Z.lxor (Z.of_N c) k)
  ∧ (Z.to_N (Z.lxor (Z.of_N c) k) < 2 ^ 16)%N.
Proof.
  intros Hc Hk. assert (0 ≤ Z.of_N c < 2 ^ 16) as Hz by lia.
  pose proof (lxor_below (Z.of_N c) k 16 ltac:(lia) Hz Hk) as Hx.
  change (charCodeAt [c] (Num 0)) with (Num (Z.of_N c)).
  unfold fromCharCode.
  rewrite to_int32_small by done. rewrite Z.mod_small by done.
  split; [done|]. lia.
Qed.

Lemma xorDecode_lookup str key i :
  xorDecode str key !! i
  = (λ c, fromCharCode
            (Z.lxor (to_int32 (charCodeAt [c] (Num 0)))
                    (to_int32 (charCodeAt key (js_rem i (length key))))))
    <$> str !! i.
Proof. unfold xorDecode. by rewrite list_lookup_imap. Qed.

Lemma xorDecode_length str key : length (xorDecode str key) = length str.
Proof. unfold xorDecode. by rewrite length_imap. Qed.

Lemma xorDecode_utf16 str key : utf16 (xorDecode str key).
Proof.
  apply Forall_lookup_2. intros i c. rewrite xorDecode_lookup.
  destruct (str !! i); [|done]. intros [= <-]. unfold fromCharCode.
  assert (0 ≤ Z.lxor (to_int32 (charCodeAt [n] (Num 0)))
                (to_int32 (charCodeAt key (js_rem i (length key))))
              mod 2 ^ 16 < 2 ^ 16) by (apply Z.mod_pos_bound; lia).
  lia.
Qed.

(** X1. Decoding twice with the same key gives the string back: the
    encoding of the word lists is undone by the same function, with any
    key; the result has the length of the input. *)
Theorem xorDecode_round_trip (str key : jsstring) :
  utf16 str → utf16 key →
  xorDecode (xorDecode str key) key = str
  ∧ length (xorDecode str key) = length str.
Proof.
  intros Hstr Hkey. split; [|apply xorDecode_length].
  apply list_eq. intros i. rewrite !xorDecode_lookup.
  destruct (str !! i) as [c|] eqn:Hc; [|done]. simpl. f_equal.
  assert (c < 2 ^ 16)%N as Hlt
    by (eapply Forall_lookup_1 in Hstr; [|exact Hc]; done).
  pose proof (key_operand_below key i Hkey) as Hk.
  set (k := to_int32 (charCodeAt key (js_rem i (length key)))) in *.
  destruct (xor_unit c k Hlt Hk) as [-> Hlt'].
  destruct (xor_unit _ k Hlt' Hk) as [-> _].
  rewrite Z2N.id by (apply Z.lxor_nonneg; lia).
  rewrite Z.lxor_assoc, Z.lxor_nilpotent, Z.lxor_0_r.
  apply N2Z.id.
Qed.

Lemma xorDecode_round_trip_witness :
  xorDecode (xorDecode (js "[APPLE,HOUSE]") key) key = js "[APPLE,HOUSE]"
  ∧ length (xorDecode (js "[APPLE,HOUSE]") key) = length (js "[APPLE,HOUSE]").
Proof.
  apply xorDecode_round_trip; unfold utf16; repeat constructor.
Defined.

(** X2. With the empty key nothing is decoded: [i % 0] is [NaN],
    [charCodeAt] of it [NaN] again, and [c ^ NaN] is [c]; the string
    comes back unchanged, without error. *)
Theorem xorDecode_empty_key (str : jsstring) :
  utf16 str → xorDecode str [] = str.
Proof.
  intros Hstr. apply list_eq. intros i. rewrite xorDecode_lookup.
  destruct (str !! i) as [c|] eqn:Hc; [|done]. simpl. f_equal.
  assert (c < 2 ^ 16)%N as Hlt
    by (eapply Forall_lookup_1 in Hstr; [|exact Hc]; done).
  destruct (xor_unit c 0 Hlt ltac:(lia)) as [H _].
  change (to_int32 (charCodeAt [] (js_rem i 0))) with 0.
  rewrite H, Z.lxor_0_r. apply N2Z.id.
Qed.

Lemma xorDecode_empty_key_witness : xorDecode (js "WORD") [] = js "WORD".
Proof. apply xorDecode_empty_key. unfold utf16. repeat constructor. Defined.

(** ** The selector on the integers, and the word it picks *)

Lemma poly_hash_from_range (lang : jsstring) h0 :
  0 ≤ h0 < 2 ^ 32 →
  0 ≤ foldl (λ h c, (h * 31 + Z.of_N c) mod 2 ^ 32) h0 lang < 2 ^ 32.
Proof.
  revert h0. induction lang as [|c lang IH]; intros h0 Hh0; [done|].
  simpl. apply IH. apply Z.mod_pos_bound. lia.
Qed.

Lemma poly_hash_range lang : 0 ≤ poly_hash lang < 2 ^ 32.
Proof. apply poly_hash_from_range. lia. Qed.

Lemma lang_hash_poly lang : utf16 lang → lang_hash lang = poly_hash lang.
Proof.
  intros Hlang. unfold lang_hash.
  rewrite <- (take_ge lang (length lang)) at 3 by done.
  apply (for_upto_invariant (λ n h, h = poly_hash (take n lang))); [done|].
  intros i h Hi ->.
  destruct (lookup_lt_is_Some_2 lang i Hi) as [c Hc].
  assert (c < 2 ^ 16)%N as Hlt
    by (eapply Forall_lookup_1 in Hlang; [|exact Hc]; done).
  rewrite (hash_step_exact lang _ i c (poly_hash_range _) Hc Hlt).
  rewrite (take_S_r _ _ _ Hc). unfold poly_hash. by rewrite foldl_app.
Qed.

(** X3. Within 8,000,000 days of 1 January 2025 nothing is rounded:
    on a non-empty list the index is the linear mix of the day number
    and the polynomial hash of the language tag, on the integers modulo
    2^32, reduced modulo the length of the list. *)
Theorem dailyIndex_exact (now : Z) (words : list jsstring) (lang : jsstring) :
  words ≠ [] → utf16 lang → Z.abs (dayNumber now) ≤ 8000000 →
  dailyIndex now words lang
  = Num (((dayNumber now * 1103515245 + 12345 + poly_hash lang) mod 2 ^ 32)
         mod Z.of_nat (length words)).
Proof.
  intros Hne Hlang Hday. rewrite dailyIndex_nonempty by done.
  rewrite lang_hash_poly by done.
  by rewrite mix_exact by (apply poly_hash_range || done).
Qed.

Lemma dailyIndex_exact_witness :
  dailyIndex 1762128000000 [js "APPLE"; js "HOUSE"; js "ALLOY"] (js "en")
  = Num (((dayNumber 1762128000000 * 1103515245 + 12345 + poly_hash (js "en"))
          mod 2 ^ 32)
         mod Z.of_nat (length [js "APPLE"; js "HOUSE"; js "ALLOY"])).
Proof.
  apply dailyIndex_exact; [discriminate | unfold utf16; repeat constructor |].
  vm_compute. discriminate.
Defined.

Lemma dailyIndex_dayId now1 now2 words lang :
  dayId now1 = dayId now2 →
  dailyIndex now1 words lang = dailyIndex now2 words lang.
Proof.
  intros Hday. unfold dailyIndex, dayNumber.
  fold (dayId now1) (dayId now2). by rewrite Hday.
Qed.

Lemma word_at_dailyIndex now (words : list jsstring) lang :
  words ≠ [] →
  ∃ word, word_at words (dailyIndex now words lang) = Some word ∧ word ∈ words.
Proof.
  intros Hne. rewrite dailyIndex_nonempty by done. unfold word_at.
  assert (0 < Z.of_nat (length words)) as Hpos
    by (destruct words; [done|simpl; lia]).
  pose proof (Z.mod_pos_bound (mix (dayNumber now) (lang_hash lang)) _ Hpos)
    as Hidx.
  rewrite decide_True by lia.
  destruct (lookup_lt_is_Some_2 words
              (Z.to_nat (mix (dayNumber now) (lang_hash lang)
                         mod Z.of_nat (length words)))) as [word Hword]; [lia|].
  exists word. split; [done|]. by apply list_elem_of_lookup_2 in Hword.
Qed.

(** X4. When the list of the language is not empty, [pickWord] returns
    a word of that list, with or without override: the index never
    leaves the list. *)
Theorem pickWord_member (w : wordlists) (now : Z) (g : game) :
  listFor w (currentLang g) ≠ [] →
  ∃ word, pickWord w now g = Some word ∧ word ∈ listFor w (currentLang g).
Proof.
  intros Hne. unfold pickWord.
  rewrite decide_False by by destruct (listFor w (currentLang g)).
  destruct (negb (falsy (manualOverride g))
            && includes (listFor w (currentLang g)) (manualOverride g)) eqn:Ho.
  - apply andb_true_iff in Ho as [_ Hin].
    destruct (manualOverride g) as [o|]; [|done].
    exists o. split; [done|]. by apply bool_decide_eq_true in Hin.
  - by apply word_at_dailyIndex.
Qed.

Lemma pickWord_member_witness :
  let w := Wordlists [js "APPLE"; js "HOUSE"; js "ALLOY"] [] ∅ ∅ in
  let g := Game (js "en") [] [] [] false true (Some (js "ALLOY")) None true in
  ∃ word, pickWord w 1762128000000 g = Some word
          ∧ word ∈ listFor w (currentLang g).
Proof. apply pickWord_member. discriminate. Defined.

Lemma pickWord_day_lang w now1 now2 g1 g2 :
  dayId now1 = dayId now2 →
  currentLang g1 = currentLang g2 →
  manualOverride g1 = manualOverride g2 →
  pickWord w now1 g1 = pickWord w now2 g2.
Proof.
  intros Hday Hlang Ho. unfold pickWord.
  by rewrite Hlang, Ho, (dailyIndex_dayId now1 now2).
Qed.

(** X5. The word depends on the clock through the UTC day only, and on
    the game through the language and the override only: two players,
    whatever their progress, get the same word all day. *)
Theorem pickWord_same_day (w : wordlists) (now1 now2 : Z) (g1 g2 : game) :
  dayId now1 = dayId now2 →
  currentLang g1 = currentLang g2 →
  manualOverride g1 = manualOverride g2 →
  pickWord w now1 g1 = pickWord w now2 g2.
Proof.
  intros Hday Hlang Ho. unfold pickWord. rewrite Hlang, Ho.
  repeat case_decide; try done.
  destruct (negb _ && _); [done|].
  f_equal. by apply dailyIndex_dayId.
Qed.

Lemma pickWord_same_day_witness :
  let w := Wordlists [js "APPLE"; js "HOUSE"; js "ALLOY"] [] ∅ ∅ in
  pickWord w 1762128000000 (Game (js "en") [] [] [] false true None None true)
  = pickWord w 1762214399999
      (Game (js "en") (js "HOUSE") [js "APPLE"] (js "AL")
            false false None None true).
Proof. apply pickWord_same_day; reflexivity. Defined.

(** ** The status of one position *)

Lemma evaluateGuess_lookup guess target i t :
  target !! i = Some t →
  evaluateGuess guess target !! i
  = Some (mark_present
            (leftover (list_to_set_disj (unmatched (align guess target)))
                      (take i (align guess target)))
            (guess !! i, t)).
Proof.
  intros Ht. rewrite evaluateGuess_aligned. unfold evaluate_aligned.
  apply present_pass_lookup. by rewrite align_lookup, Ht.
Qed.

Lemma mark_present_correct M p : mark_present M p = correct ↔ matches p.
Proof.
  unfold mark_present. destruct (decide (matches p)); [done|].
  destruct p.1; [case_decide|]; split; done.
Qed.

Lemma mark_present_present M p :
  mark_present M p = present → ¬ matches p ∧ ∃ c, p.1 = Some c ∧ c ∈ M.
Proof.
  unfold mark_present. destruct (decide (matches p)); [done|].
  destruct p.1 as [c|]; [|done]. case_decide; [|done]. eauto.
Qed.

Lemma consume_subseteq M p c : c ∈ consume M p → c ∈ M.
Proof.
  unfold consume. destruct (decide (matches p)); [done|].
  destruct p.1; [|done]. rewrite !elem_of_multiplicity.
  rewrite multiplicity_difference. lia.
Qed.

Lemma leftover_subseteq M ps c : c ∈ leftover M ps → c ∈ M.
Proof.
  unfold leftover. revert M. induction ps as [|p ps IH]; intros M; [done|].
  simpl. intros H. apply IH in H. by apply consume_subseteq in H.
Qed.

Lemma elem_of_unmatched guess target c :
  c ∈ unmatched (align guess target) →
  ∃ j, target !! j = Some c ∧ guess !! j ≠ Some c.
Proof.
  unfold unmatched. intros H.
  apply list_elem_of_fmap in H as ([g t] & -> & H).
  apply list_elem_of_filter in H as [Hm H].
  apply list_elem_of_lookup in H as [j Hj].
  rewrite align_lookup in Hj.
  destruct (target !! j) as [t'|] eqn:Ht; [|done].
  injection Hj as <- <-. exists j. split; [done|]. exact Hm.
Qed.

Lemma status_correct_iff guess target i t :
  target !! i = Some t →
  evaluateGuess guess target !! i = Some correct ↔ guess !! i = Some t.
Proof.
  intros Ht. rewrite (evaluateGuess_lookup _ _ _ _ Ht). split.
  - intros [= H]. by apply mark_present_correct in H.
  - intros H. f_equal. by apply mark_present_correct.
Qed.

(** X6. A position is [correct] exactly when the guess has the
    target's code unit there, for guesses of any length. *)
Theorem evaluateGuess_correct_iff (guess target : jsstring) (i : nat)
    (t : code_unit) :
  target !! i = Some t →
  evaluateGuess guess target !! i = Some correct ↔ guess !! i = Some t.
Proof.
  intros Ht. rewrite (evaluateGuess_lookup _ _ _ _ Ht).
  split; intros H.
  - injection H as H. by apply mark_present_correct in H.
  - f_equal. by apply mark_present_correct.
Qed.

Lemma evaluateGuess_correct_iff_witness :
  evaluateGuess (js "PAPAL") (js "APPLE") !! 2%nat = Some correct
  ↔ js "PAPAL" !! 2%nat = Some (N_of_ascii "P").
Proof. apply evaluateGuess_correct_iff. reflexivity. Defined.

(** X7. A position is [present] only if its letter stands in the target
    at another position, one where the guess does not have it. *)
Theorem evaluateGuess_present_elsewhere (guess target : jsstring) (i : nat) :
  evaluateGuess guess target !! i = Some present →
  ∃ c j, guess !! i = Some c ∧ target !! i ≠ Some c
         ∧ target !! j = Some c ∧ guess !! j ≠ Some c.
Proof.
  intros H.
  assert (i < length target)%nat as Hi.
  { rewrite <- (evaluateGuess_length guess target). by eapply lookup_lt_Some. }
  destruct (lookup_lt_is_Some_2 target i Hi) as [t Ht].
  rewrite (evaluateGuess_lookup _ _ _ _ Ht) in H. injection H as H.
  apply mark_present_present in H as (Hm & c & Hc & Hin). simpl in Hc.
  apply leftover_subseteq in Hin.
  apply elem_of_list_to_set_disj in Hin.
  apply elem_of_unmatched in Hin as (j & Hj & Hgj).
  exists c, j. repeat split; try done.
  rewrite Ht. intros [= ->]. apply Hm. by unfold matches.
Qed.

Lemma evaluateGuess_present_elsewhere_witness :
  ∃ c j, js "PAPAL" !! 0%nat = Some c ∧ js "APPLE" !! 0%nat ≠ Some c
         ∧ js "APPLE" !! j = Some c ∧ js "PAPAL" !! j ≠ Some c.
Proof. apply evaluateGuess_present_elsewhere. reflexivity. Defined.

(** X8. A letter that the target does not contain is [absent] wherever
    the guess has it. *)
Theorem evaluateGuess_foreign_letter (guess target : jsstring) (i : nat)
    (c : code_unit) :
  guess !! i = Some c → c ∉ target → (i < length target)%nat →
  evaluateGuess guess target !! i = Some absent.
Proof.
  intros Hg Hc Hi.
  destruct (lookup_lt_is_Some_2 target i Hi) as [t Ht].
  destruct (lookup_lt_is_Some_2 (evaluateGuess guess target) i) as [s Hs];
    [by rewrite evaluateGuess_length|].
  rewrite Hs. f_equal. destruct s; [| |done].
  - exfalso. rewrite (evaluateGuess_lookup _ _ _ _ Ht) in Hs.
    injection Hs as Hs. apply mark_present_correct in Hs.
    unfold matches in Hs. simpl in Hs. rewrite Hg in Hs. injection Hs as ->.
    apply Hc. by eapply list_elem_of_lookup_2.
  - exfalso. rewrite (evaluateGuess_lookup _ _ _ _ Ht) in Hs.
    injection Hs as Hs.
    apply mark_present_present in Hs as (_ & c' & Hc' & Hin). simpl in Hc'.
    rewrite Hg in Hc'. injection Hc' as <-.
    apply leftover_subseteq, elem_of_list_to_set_disj in Hin.
    apply elem_of_unmatched in Hin as (j & Hj & _).
    apply Hc. by eapply list_elem_of_lookup_2.
Qed.

Lemma evaluateGuess_foreign_letter_witness :
  evaluateGuess (js "BRAVE") (js "HOUSE") !! 0%nat = Some absent.
Proof.
  apply (evaluateGuess_foreign_letter _ _ _ (N_of_ascii "B")).
  - reflexivity.
  - intros H. repeat (apply elem_of_cons in H as [H|H]; [discriminate H|]).
    by apply elem_of_nil in H.
  - simpl. lia.
Defined.

(** ** All green, and how many positions a letter gets *)

Lemma all_correct_iff guess target :
  evaluateGuess guess target = replicate (length target) correct
  ↔ take (length target) guess = target.
Proof.
  split; intros H.
  - apply list_eq. intros i. rewrite lookup_take.
    destruct (decide (i < length target)%nat) as [Hi|Hi].
    + destruct (lookup_lt_is_Some_2 target i Hi) as [t Ht]. rewrite Ht.
      apply (status_correct_iff guess target i t Ht).
      rewrite H. by apply lookup_replicate_2.
    + symmetry. apply lookup_ge_None_2. lia.
  - apply list_eq. intros i.
    destruct (decide (i < length target)%nat) as [Hi|Hi].
    + rewrite lookup_replicate_2 by done.
      destruct (lookup_lt_is_Some_2 target i Hi) as [t Ht].
      apply (status_correct_iff guess target i t Ht).
      by rewrite <- Ht, <- H, lookup_take_lt.
    + rewrite (lookup_ge_None_2 (replicate _ _)) by (rewrite length_replicate; lia).
      apply lookup_ge_None_2. rewrite evaluateGuess_length. lia.
Qed.

(** X9. Every position is [correct] exactly when the guess, cut at the
    target's length, is the target; so a guess of the target's length
    is all [correct] exactly when it is the target, which is when
    [submitGuess] declares the game won. *)
Theorem evaluateGuess_all_correct (guess target : jsstring) :
  (evaluateGuess guess target = replicate (length target) correct
   ↔ take (length target) guess = target)
  ∧ (length guess = length target
     ∧ evaluateGuess guess target = replicate (length target) correct
     ↔ guess = target).
Proof.
  split; [apply all_correct_iff|].
  rewrite all_correct_iff. split.
  - intros [Hlen H]. by rewrite <- Hlen, firstn_all in H.
  - intros ->. split; [done|]. apply firstn_all.
Qed.

Lemma misplaced_cons c p ps :
  misplaced c (p :: ps)
  = ((if decide (p.1 = Some c ∧ ¬ matches p) then 1 else 0) + misplaced c ps)%nat.
Proof. unfold misplaced. rewrite filter_cons. by case_decide. Qed.

Lemma marked_cons c g guess s r :
  marked c (g :: guess) (s :: r)
  = ((if decide (g = c ∧ (s = correct ∨ s = present)) then 1 else 0)
     + marked c guess r)%nat.
Proof. unfold marked. simpl. rewrite filter_cons. simpl. by case_decide. Qed.

Lemma occurrences_cons c x l :
  occurrences c (x :: l)
  = ((if decide (c = x) then 1 else 0) + occurrences c l)%nat.
Proof. unfold occurrences. rewrite filter_cons. by case_decide. Qed.

Lemma marked_exact_aligned c M guess target :
  length guess = length target →
  marked c guess (present_pass M (align guess target))
  = (occurrences c (matched (align guess target))
     + misplaced c (align guess target) `min` multiplicity c M)%nat.
Proof.
  revert target M.
  induction guess as [|g guess IH]; intros [|t target] M Hlen;
    try discriminate Hlen; [done|].
  injection Hlen as Hlen. rewrite align_cons. simpl.
  rewrite marked_cons, misplaced_cons, (IH target _ Hlen). simpl.
  unfold matched. rewrite filter_cons.
  destruct (decide (g = t)) as [->|Hne].
  - assert (matches (Some t, t)) as Hm by done.
    rewrite mark_present_match, consume_match.
    rewrite (decide_True _ _ Hm), fmap_cons, occurrences_cons. simpl.
    rewrite (decide_False (P := _ ∧ ¬ _)) by tauto.
    destruct (decide (t = c)) as [->|Hc].
    + rewrite decide_True by auto. rewrite decide_True by done. lia.
    + rewrite decide_False by tauto. rewrite decide_False by congruence. lia.
  - assert (¬ matches (Some g, t)) as Hm by by rewrite matches_pair.
    rewrite mark_present_other, consume_other by done.
    rewrite (decide_False _ _ Hm), multiplicity_difference.
    destruct (decide (g = c)) as [->|Hc].
    + rewrite (decide_True (P := Some c = Some c ∧ _)) by done.
      rewrite multiplicity_singleton_eq.
      destruct (decide (c ∈ M)) as [Hin|Hin].
      * rewrite elem_of_multiplicity in Hin.
        rewrite decide_True by auto. lia.
      * assert (multiplicity c M = 0)%nat as Hz
          by (rewrite elem_of_multiplicity in Hin; lia).
        rewrite decide_False by (intros [_ [?|?]]; done). lia.
    + rewrite (decide_False (P := Some g = Some c ∧ _))
        by (intros [[= ?] _]; done).
      rewrite multiplicity_singleton_ne by congruence.
      rewrite (decide_False (P := g = c ∧ _)) by tauto. lia.
Qed.

Lemma occurrences_guess c guess target :
  length guess = length target →
  occurrences c guess
  = (occurrences c (matched (align guess target))
     + misplaced c (align guess target))%nat.
Proof.
  revert target.
  induction guess as [|g guess IH]; intros [|t target] Hlen;
    try discriminate Hlen; [done|].
  injection Hlen as Hlen. rewrite align_cons.
  rewrite occurrences_cons, misplaced_cons, (IH target Hlen). simpl.
  unfold matched. rewrite filter_cons.
  destruct (decide (g = t)) as [->|Hne].
  - assert (matches (Some t, t)) as Hm by done.
    rewrite (decide_True _ _ Hm), fmap_cons, occurrences_cons. simpl.
    rewrite (decide_False (P := _ ∧ ¬ _)) by tauto. lia.
  - assert (¬ matches (Some g, t)) as Hm by by rewrite matches_pair.
    rewrite (decide_False _ _ Hm).
    destruct (decide (c = g)) as [->|Hc].
    + rewrite decide_True by done. lia.
    + rewrite decide_False by (intros [[= ?] _]; done). lia.
Qed.

(** X10. For guess and target of equal length, the positions of a
    letter that are marked [correct] or [present] are as many as the
    letter has in the guess or in the target, whichever is fewer: no
    letter is marked too often, and none too rarely. *)
Theorem evaluateGuess_marks_min (guess target : jsstring) (c : code_unit) :
  length guess = length target →
  marked c guess (evaluateGuess guess target)
  = (occurrences c guess `min` occurrences c target)%nat.
Proof.
  intros Hlen. rewrite evaluateGuess_aligned. unfold evaluate_aligned.
  rewrite (marked_exact_aligned c _ guess target Hlen).
  rewrite (occurrences_guess c guess target Hlen).
  pose proof (matched_unmatched (align guess target)) as H.
  rewrite align_snd in H. apply (f_equal (multiplicity c)) in H.
  rewrite multiplicity_disj_union, !multiplicity_letters in H.
  rewrite multiplicity_letters, H. lia.
Qed.

Lemma evaluateGuess_marks_min_witness :
  marked (N_of_ascii "A") (js "LLAMA") (evaluateGuess (js "LLAMA") (js "ALLOY"))
  = (occurrences (N_of_ascii "A") (js "LLAMA")
     `min` occurrences (N_of_ascii "A") (js "ALLOY"))%nat.
Proof. apply evaluateGuess_marks_min. reflexivity. Defined.

(** ** Submitting, typing and deleting *)

(** X11. The solution is always accepted: submitted in a running game
    it is recorded, whether or not the allowed list has it, the row is
    emptied, the game is over and [showMessage('You win!')] is called,
    which sets the toast on a page that has it. *)
Theorem submitGuess_solution_wins (w : wordlists) (g : game) :
  gameOver g = false →
  currentGuess g = targetWord g →
  submitGuess w g
  = showMessage (js "You win!")
      (Game (currentLang g) (targetWord g) (attempts g ++ [targetWord g]) []
            true (firstLoad g) (manualOverride g) (toast g) (toastEl g))
  ∧ attempts (submitGuess w g) = attempts g ++ [targetWord g]
  ∧ currentGuess (submitGuess w g) = []
  ∧ gameOver (submitGuess w g) = true
  ∧ toast (submitGuess w g)
    = (if toastEl g then Some (js "You win!") else toast g).
Proof.
  intros Hover Hwin.
  assert (submitGuess w g
          = showMessage (js "You win!")
              (Game (currentLang g) (targetWord g)
                    (attempts g ++ [targetWord g]) []
                    true (firstLoad g) (manualOverride g) (toast g)
                    (toastEl g))) as ->.
  { unfold submitGuess. rewrite Hover, Hwin.
    rewrite decide_False by (intros H; by apply H).
    rewrite bool_decide_eq_false_2 by (intros (_ & _ & H); by apply H).
    by rewrite decide_True. }
  split; [done|]. rewrite showMessage_toast. by show_message.
Qed.

Lemma submitGuess_solution_wins_witness :
  let w := Wordlists [js "HOUSE"] [] {[ js "APPLE" ]} ∅ in
  let g := Game (js "en") (js "HOUSE") [js "APPLE"] (js "HOUSE")
                false false None None true in
  submitGuess w g
  = showMessage (js "You win!")
      (Game (currentLang g) (targetWord g) (attempts g ++ [targetWord g]) []
            true (firstLoad g) (manualOverride g) (toast g) (toastEl g))
  ∧ attempts (submitGuess w g) = attempts g ++ [targetWord g]
  ∧ currentGuess (submitGuess w g) = []
  ∧ gameOver (submitGuess w g) = true
  ∧ toast (submitGuess w g)
    = (if toastEl g then Some (js "You win!") else toast g).
Proof. apply submitGuess_solution_wins; reflexivity. Defined.

(** X12. [submitGuess] records nothing but the guess being typed, and
    only in a running game, when the guess has the target's length and
    is in the allowed set, or is the target, or the allowed set is
    empty. *)
Theorem submitGuess_records_valid (w : wordlists) (g : game) :
  attempts (submitGuess w g) ≠ attempts g →
  gameOver g = false
  ∧ length (currentGuess g) = length (targetWord g)
  ∧ (size (allowedSetFor w (currentLang g)) = 0%nat
     ∨ currentGuess g ∈ allowedSetFor w (currentLang g)
     ∨ currentGuess g = targetWord g)
  ∧ attempts (submitGuess w g) = attempts g ++ [currentGuess g].
Proof.
  unfold submitGuess. destruct (gameOver g); [done|].
  destruct (decide (length (currentGuess g) ≠ length (targetWord g)))
    as [|Hlen]; [by show_message|].
  apply dec_stable in Hlen.
  destruct (bool_decide _) eqn:Hal; [by show_message|].
  apply bool_decide_eq_false in Hal. intros _.
  split; [done|]. split; [done|]. split.
  - destruct (decide (size (allowedSetFor w (currentLang g)) = 0%nat));
      [by left|].
    destruct (decide (currentGuess g ∈ allowedSetFor w (currentLang g)));
      [by right; left|].
    destruct (decide (currentGuess g = targetWord g)); [by right; right|].
    by destruct Hal.
  - repeat case_decide; by show_message.
Qed.

Lemma submitGuess_records_valid_witness :
  let w := Wordlists [js "HOUSE"] [] {[ js "APPLE" ]} ∅ in
  let g := Game (js "en") (js "HOUSE") [] (js "APPLE")
                false false None None true in
  gameOver g = false
  ∧ length (currentGuess g) = length (targetWord g)
  ∧ (size (allowedSetFor w (currentLang g)) = 0%nat
     ∨ currentGuess g ∈ allowedSetFor w (currentLang g)
     ∨ currentGuess g = targetWord g)
  ∧ attempts (submitGuess w g) = attempts g ++ [currentGuess g].
Proof. apply submitGuess_records_valid. vm_compute. discriminate. Defined.

(** X13. Deleting undoes typing: in a running game with attempts left
    and room in the row, a letter key followed by Del leaves every
    variable as it was. *)
Theorem deleteLetter_handleKey (letter : code_unit) (g : game) :
  gameOver g = false →
  (length (attempts g) < maxAttempts)%nat →
  (length (currentGuess g) < length (targetWord g))%nat →
  deleteLetter (handleKey [letter] g) = g.
Proof.
  intros Hover Hatt Hroom. unfold handleKey. rewrite Hover.
  rewrite decide_False by lia. rewrite decide_False by lia.
  unfold deleteLetter. simpl.
  destruct (currentGuess g ++ [letter]) eqn:Hnil;
    [by destruct (currentGuess g)|].
  rewrite <- Hnil. clear Hnil.
  rewrite length_app. simpl.
  replace (length (currentGuess g) + 1 - 1)%nat
    with (length (currentGuess g)) by lia.
  rewrite take_app_length. destruct g; simpl in *. by subst.
Qed.

Lemma deleteLetter_handleKey_witness :
  let g := Game (js "en") (js "HOUSE") [js "APPLE"] (js "HO")
                false false None None true in
  deleteLetter (handleKey [N_of_ascii "U"] g) = g.
Proof. apply deleteLetter_handleKey; [reflexivity | vm_compute; lia..]. Defined.

(** ** A game under the on-screen keyboard *)

Lemma showMessage_in_play text g : in_play g → in_play (showMessage text g).
Proof. unfold in_play. by show_message. Qed.

Lemma submitGuess_in_play w g :
  in_play g →
  in_play (submitGuess w g)
  ∧ targetWord (submitGuess w g) = targetWord g
  ∧ currentLang (submitGuess w g) = currentLang g.
Proof.
  intros Hplay. pose proof Hplay as (Hall & Hmax & Hcur & Hover).
  unfold submitGuess.
  destruct (gameOver g) eqn:Hg; [done|].
  destruct (decide (length (currentGuess g) ≠ length (targetWord g)))
    as [|Hlen];
    [by split; [apply showMessage_in_play | show_message]|].
  apply dec_stable in Hlen.
  destruct (bool_decide _);
    [by split; [apply showMessage_in_play | show_message]|].
  assert ((targetWord g ∉ attempts g) ∧ length (attempts g) ≠ maxAttempts)
    as [Hnot Hne].
  { split; intros H; destruct Hover as [_ Hover];
      (assert (false = true) by (apply Hover; auto)); done. }
  assert (Forall (λ a, length a = length (targetWord g))
            (attempts g ++ [currentGuess g])) as Hall'.
  { apply Forall_app. split; [done|]. by apply Forall_singleton. }
  assert (length (attempts g ++ [currentGuess g]) = S (length (attempts g)))
    as Hlen' by (rewrite length_app; simpl; lia).
  destruct (decide (currentGuess g = targetWord g)) as [Hwin|Hwin].
  - split; [|by show_message]. apply showMessage_in_play.
    unfold in_play. simpl. rewrite Hlen'.
    repeat split; try done; try lia.
    intros _. left. apply elem_of_app. right. rewrite Hwin.
    apply list_elem_of_singleton. done.
  - destruct (decide (length (attempts g ++ [currentGuess g]) = maxAttempts))
      as [Hfull|Hfull].
    + split; [|by show_message]. apply showMessage_in_play.
      unfold in_play. simpl. rewrite Hlen'.
      repeat split; try done; try lia; try (intros _; right; lia).
    + split; [|done]. unfold in_play. simpl. rewrite Hlen'.
      repeat split; try done; try lia.
      intros [Hin|Hsix]; [|lia].
      apply elem_of_app in Hin as [Hin|Hin]; [done|].
      apply list_elem_of_singleton in Hin. congruence.
Qed.

Lemma handleKey_in_play letter g :
  in_play g →
  in_play (handleKey [letter] g)
  ∧ targetWord (handleKey [letter] g) = targetWord g
  ∧ currentLang (handleKey [letter] g) = currentLang g.
Proof.
  intros Hplay. pose proof Hplay as (Hall & Hmax & Hcur & Hover).
  unfold handleKey.
  destruct (gameOver g) eqn:Hg; [done|].
  repeat case_decide; try done.
  split; [|done]. unfold in_play. simpl. rewrite length_app. simpl.
  repeat split; try done; try lia; apply Hover.
Qed.

Lemma deleteLetter_in_play g :
  in_play g →
  in_play (deleteLetter g)
  ∧ targetWord (deleteLetter g) = targetWord g
  ∧ currentLang (deleteLetter g) = currentLang g.
Proof.
  intros Hplay. pose proof Hplay as (Hall & Hmax & Hcur & Hover).
  unfold deleteLetter.
  destruct (gameOver g) eqn:Hg; [done|].
  destruct (falsy _); [done|].
  split; [|done]. unfold in_play. simpl. rewrite length_take.
  repeat split; try done; try lia; apply Hover.
Qed.

Lemma on_click_in_play w c g :
  in_play g →
  in_play (on_click w g c)
  ∧ targetWord (on_click w g c) = targetWord g
  ∧ currentLang (on_click w g c) = currentLang g.
Proof.
  intros Hg. destruct c; simpl.
  - by apply submitGuess_in_play.
  - by apply handleKey_in_play.
  - by apply deleteLetter_in_play.
Qed.


(** X14. Whatever is clicked on the on-screen keyboard, a game stays
    as play leaves it: every attempt has the target's length, there are
    never more than six, the row being typed never outgrows the target,
    the game is over exactly when the target was guessed or the sixth
    attempt was made; target and language do not change. *)
Theorem clicks_keep_in_play (w : wordlists) (clicks : list click) (g : game) :
  in_play g →
  in_play (foldl (on_click w) g clicks)
  ∧ targetWord (foldl (on_click w) g clicks) = targetWord g
  ∧ currentLang (foldl (on_click w) g clicks) = currentLang g.
Proof.
  revert g. induction clicks as [|c clicks IH]; intros g Hplay.
  - simpl. split; [exact Hplay | split; reflexivity].
  - simpl.
    destruct (on_click_in_play w c g Hplay) as (Hstep & Htarget & Hlang).
    destruct (IH (on_click w g c) Hstep) as (Hrest & Htarget' & Hlang').
    split; [exact Hrest|].
    split; [by rewrite Htarget' | by rewrite Hlang'].
Qed.

Lemma clicks_keep_in_play_witness :
  let w := Wordlists [js "HOUSE"] [] ∅ ∅ in
  let g := Game (js "en") (js "HOUSE") [] [] false false None None true in
  let clicks := [ClickLetter (N_of_ascii "M"); ClickDel;
                 ClickLetter (N_of_ascii "H"); ClickEnter] in
  in_play (foldl (on_click w) g clicks)
  ∧ targetWord (foldl (on_click w) g clicks) = targetWord g
  ∧ currentLang (foldl (on_click w) g clicks) = currentLang g.
Proof.
  apply clicks_keep_in_play. unfold in_play. simpl.
  split; [constructor|]. split; [unfold maxAttempts; lia|].
  split; [lia|]. split; [done|].
  intros [H|H]; [by apply elem_of_nil in H | discriminate H].
Defined.

(** X15. A finished game is frozen: no click on Enter, a letter or Del
    changes any variable. *)
Theorem clicks_after_game_over (w : wordlists) (clicks : list click) (g : game) :
  gameOver g = true → foldl (on_click w) g clicks = g.
Proof.
  intros Hover. induction clicks as [|c clicks IH]; [done|].
  simpl.
  assert (on_click w g c = g) as ->; [|done].
  destruct c; simpl; unfold submitGuess, handleKey, deleteLetter;
    by rewrite Hover.
Qed.

Lemma clicks_after_game_over_witness :
  let w := Wordlists [js "HOUSE"] [] ∅ ∅ in
  let g := Game (js "en") (js "HOUSE") [js "HOUSE"] []
                true false None None true in
  foldl (on_click w) g [ClickLetter (N_of_ascii "M"); ClickEnter; ClickDel] = g.
Proof. apply clicks_after_game_over. reflexivity. Defined.

(** X16. Once the target is among the attempts, the keyboard map shows
    every letter of the target [correct]. *)
Theorem computeStatuses_after_win (g : game) (l : code_unit) :
  targetWord g ∈ attempts g →
  l ∈ targetWord g →
  computeStatuses g !! Some l = Some correct.
Proof.
  intros Hwin Hl.
  assert (observed g l correct) as Hobs.
  { apply list_elem_of_lookup in Hl as [i Hi].
    exists (targetWord g), i. repeat split; try done.
    unfold shown_status.
    by rewrite (proj2 (status_correct_iff _ _ i l Hi) Hi). }
  destruct (computeStatuses_right g) as [_ H]. specialize (H l).
  destruct (computeStatuses g !! Some l) as [s|].
  - destruct H as [_ Hmax]. specialize (Hmax correct Hobs).
    f_equal. destruct s; simpl in Hmax; try done; lia.
  - by destruct (H correct).
Qed.

Lemma computeStatuses_after_win_witness :
  computeStatuses
    (Game (js "en") (js "HOUSE") [js "MOUSE"; js "HOUSE"] []
          true false None None true)
    !! Some (N_of_ascii "H") = Some correct.
Proof.
  apply computeStatuses_after_win; simpl.
  - apply elem_of_cons. right. apply elem_of_cons. by left.
  - apply elem_of_cons. by left.
Defined.

(** ** Starting, reloading and switching language *)

Arguments js : simpl never.
Arguments falsy : simpl never.

Lemma falsy_word (word : jsstring) : word ≠ [] → falsy (Some word) = false.
Proof. by destruct word. Qed.

(** X17. Whatever stored state of the shape that [saveState] writes is
    loaded, also one with another solution, more than six attempts or a
    row longer than the word, a game that [startGame] starts has
    today's word of the language in effect as its target, at most six
    attempts, a row no longer than the word, and the first load is
    over. *)
Theorem startGame_target (w : wordlists) (now : Z) (restored : option payload)
    (manualSwitch : bool) (g : game) (word : jsstring) :
  pickWord w now (restoreLang now restored manualSwitch g) = Some word →
  word ≠ [] →
  let g' := startGame w now restored manualSwitch g in
  targetWord g' = word
  ∧ currentLang g' = currentLang (restoreLang now restored manualSwitch g)
  ∧ (length (attempts g') ≤ maxAttempts)%nat
  ∧ (length (currentGuess g') ≤ length word)%nat
  ∧ firstLoad g' = false.
Proof.
  intros Hpick Hword. unfold startGame. rewrite Hpick.
  rewrite (falsy_word _ Hword). simpl.
  destruct restored as [p|]; [|simpl; repeat split; lia].
  case_bool_decide as Hsame; [|simpl; repeat split; lia].
  destruct Hsame as (_ & _ & Hsol). simpl.
  repeat split; try done.
  - rewrite length_take. lia.
  - case_decide; [rewrite length_take|]; lia.
Qed.

Lemma startGame_target_witness :
  let w := Wordlists [js "APPLE"; js "HOUSE"; js "ALLOY"] [] ∅ ∅ in
  let restored := Some (Payload 20395 (js "en") (js "HOUSE")
                          (replicate 9 (js "MOUSE")) (js "HOUSES") false) in
  let g' := startGame w 1762128000000 restored false (initial true) in
  targetWord g' = js "HOUSE"
  ∧ currentLang g'
    = currentLang (restoreLang 1762128000000 restored false (initial true))
  ∧ (length (attempts g') ≤ maxAttempts)%nat
  ∧ (length (currentGuess g') ≤ length (js "HOUSE"))%nat
  ∧ firstLoad g' = false.
Proof.
  apply (startGame_target
           (Wordlists [js "APPLE"; js "HOUSE"; js "ALLOY"] [] ∅ ∅)
           1762128000000
           (Some (Payload 20395 (js "en") (js "HOUSE")
                    (replicate 9 (js "MOUSE")) (js "HOUSES") false))
           false (initial true) (js "HOUSE")); [reflexivity | discriminate].
Defined.

(** X18. A game saved and loaded again on the same UTC day comes back:
    from the variables' initial values, [startGame] with the state that
    [saveState] stored restores language, target, attempts, the row
    being typed and whether the game is over. *)
Theorem startGame_restores_saved (w : wordlists) (now now' : Z) (g : game)
    (el : bool) :
  dayId now' = dayId now →
  manualOverride g = None →
  currentLang g ≠ [] →
  targetWord g ≠ [] →
  pickWord w now g = Some (targetWord g) →
  (length (attempts g) ≤ maxAttempts)%nat →
  (length (currentGuess g) ≤ length (targetWord g))%nat →
  startGame w now' (Some (saveState now g)) false (initial el)
  = Game (currentLang g) (targetWord g) (attempts g) (currentGuess g)
         (gameOver g) false None None el.
Proof.
  intros Hday Hover Hlang Hword Hpick Hatt Hcur.
  unfold startGame, restoreLang, saveState. simpl.
  rewrite bool_decide_eq_true_2 by done.
  rewrite (falsy_word _ Hlang). simpl.
  rewrite (pickWord_day_lang w now' now _ g Hday)
    by (simpl; congruence).
  rewrite Hpick, (falsy_word _ Hword). simpl.
  rewrite bool_decide_eq_true_2 by done.
  rewrite take_ge by done.
  by rewrite decide_False by lia.
Qed.

Lemma startGame_restores_saved_witness :
  let w := Wordlists [js "APPLE"; js "HOUSE"; js "ALLOY"] [] ∅ ∅ in
  let g := Game (js "en") (js "HOUSE") [js "MOUSE"] (js "HO")
                false false None (Some (js "Not in word list")) true in
  startGame w 1762214399999 (Some (saveState 1762128000000 g)) false
    (initial true)
  = Game (currentLang g) (targetWord g) (attempts g) (currentGuess g)
         (gameOver g) false None None true.
Proof.
  apply startGame_restores_saved;
    [reflexivity | reflexivity | discriminate | discriminate | reflexivity
    | vm_compute; lia | vm_compute; lia].
Defined.

(** X19. A state saved on another day is dropped: [startGame] keeps the
    language it has and starts a fresh game on today's word, with no
    attempt and an empty row. *)
Theorem startGame_drops_stale (w : wordlists) (now : Z) (p : payload)
    (manualSwitch : bool) (g : game) (word : jsstring) :
  saved_dayId p ≠ dayId now →
  pickWord w now g = Some word →
  word ≠ [] →
  startGame w now (Some p) manualSwitch g
  = Game (currentLang g) word [] [] false false (manualOverride g) (toast g)
         (toastEl g).
Proof.
  intros Hday Hpick Hword. unfold startGame, restoreLang.
  rewrite (bool_decide_eq_false_2 (saved_dayId p = dayId now)) by done.
  rewrite andb_false_r. simpl.
  rewrite Hpick, (falsy_word _ Hword). simpl.
  rewrite bool_decide_eq_false_2; [done|]. by intros (? & _).
Qed.

Lemma startGame_drops_stale_witness :
  let w := Wordlists [js "APPLE"; js "HOUSE"; js "ALLOY"] [] ∅ ∅ in
  let p := Payload 20394 (js "en") (js "APPLE") [js "MOUSE"] (js "AP") false in
  startGame w 1762128000000 (Some p) false (initial true)
  = Game (currentLang (initial true)) (js "HOUSE") [] [] false false
         (manualOverride (initial true)) (toast (initial true))
         (toastEl (initial true)).
Proof.
  apply startGame_drops_stale; [discriminate | reflexivity | discriminate].
Defined.

Lemma other_lang_ne lang : other_lang lang ≠ lang.
Proof.
  unfold other_lang. case_decide as H; [by rewrite H|].
  intros Heq. by apply H.
Qed.

Lemma switch_goes_on_guard confirmed g :
  switch_goes_on confirmed g →
  (bool_decide (0 < length (attempts g))%nat
   || bool_decide (0 < length (currentGuess g))%nat)
  && negb (gameOver g) && negb confirmed = false.
Proof.
  intros [->|[->|[-> ->]]].
  - apply andb_false_r.
  - by rewrite andb_false_r.
  - done.
Qed.

(** X20. Switching language loses the progress, as the confirmation
    says: when the store holds a state of the language being left and
    the other language has a word today, the game after the switch is a
    fresh one in the other language, on that word, with no attempt and
    an empty row, and [showMessage] is called with the language's
    text, which sets the toast on a page that has it. *)
Theorem switchLanguage_fresh_game (w : wordlists) (now : Z)
    (restored : option payload) (confirmed : bool) (uk_text : jsstring)
    (g : game) (word : jsstring) :
  switch_goes_on confirmed g →
  (∀ p, restored = Some p → saved_lang p = currentLang g) →
  pickWord w now
    (Game (other_lang (currentLang g)) [] [] [] false false
          (manualOverride g) None (toastEl g)) = Some word →
  word ≠ [] →
  switchLanguageWithConfirm w now restored confirmed uk_text g
  = showMessage (lang_text uk_text (other_lang (currentLang g)))
      (Game (other_lang (currentLang g)) word [] [] false false
            (manualOverride g) (toast g) (toastEl g)).
Proof.
  intros Hgo Hstore Hpick Hword. unfold switchLanguageWithConfirm.
  rewrite (switch_goes_on_guard _ _ Hgo).
  fold (other_lang (currentLang g)).
  set (g1 := Game (other_lang (currentLang g)) _ _ _ _ _ _ _ _).
  assert (restoreLang now restored true g1 = g1) as Hrl
    by (unfold restoreLang; by destruct restored).
  assert (pickWord w now g1 = Some word) as Hpick1
    by (rewrite <- Hpick; by apply pickWord_day_lang).
  assert (startGame w now restored true g1
          = Game (other_lang (currentLang g)) word [] [] false false
                 (manualOverride g) (toast g) (toastEl g)) as ->.
  { unfold startGame. rewrite Hrl, Hpick1, (falsy_word _ Hword). simpl.
    destruct restored as [p|]; [|done].
    rewrite bool_decide_eq_false_2; [done|].
    intros (_ & Hl & _). rewrite (Hstore p eq_refl) in Hl.
    by apply (other_lang_ne (currentLang g)). }
  done.
Qed.

Lemma switchLanguage_fresh_game_witness :
  let w := Wordlists [js "APPLE"; js "HOUSE"; js "ALLOY"]
                     [js "UKRAI"; js "KYIVA"] ∅ ∅ in
  let g := Game (js "en") (js "HOUSE") [js "MOUSE"] (js "HO")
                false false None None true in
  switchLanguageWithConfirm w 1762128000000
    (Some (saveState 1762128000000 g)) true (js "Mova") g
  = showMessage (lang_text (js "Mova") (other_lang (currentLang g)))
      (Game (other_lang (currentLang g)) (js "KYIVA") [] [] false false
            (manualOverride g) (toast g) (toastEl g)).
Proof.
  apply switchLanguage_fresh_game.
  - by left.
  - by intros p [= <-].
  - vm_compute. reflexivity.
  - discriminate.
Defined.




